(** * SQL formatting and highlighting engine of sql_tester_gui

    A shallow embedding of [formatter.py] (class [SQLFormatter]) and of
    [highlight_sql_tokenize] from [sql_tester.py], with the properties the
    specification states about them.

    Text is modelled as [string] (a sequence of 8-bit characters).  The
    character classes that Python applies ([str.isspace], [str.upper], the
    regular-expression classes [\d] and [\w]) are modelled exactly on the
    ASCII range; a character above 127 is treated as a caseless symbol that
    is neither white space, a digit nor a word character.

    A Python operation that can raise ([l[-1]] and [l[0]] on an empty list)
    is modelled in the [option] monad: [None] is the raised [IndexError]. *)

From Stdlib Require Import String Ascii List ZArith Lia Bool Arith DecimalString.
Import ListNotations.
Local Open Scope string_scope.
Local Open Scope list_scope.

Infix "+++" := String.append (right associativity, at level 60).

(** ** Python string and list primitives *)

Module PyStr.

Definition nl : ascii := "010"%char.
Definition NL : string := String nl EmptyString.

Definition is_empty (s : string) : bool :=
  match s with EmptyString => true | String _ _ => false end.

(** [str.isspace] on the ASCII range: TAB, LF, VT, FF, CR, FS, GS, RS, US
    and the space. *)
Definition isspace (c : ascii) : bool :=
  let n := nat_of_ascii c in
  ((9 <=? n)%nat && (n <=? 13)%nat) || ((28 <=? n)%nat && (n <=? 32)%nat).

Definition is_lower (c : ascii) : bool :=
  let n := nat_of_ascii c in (97 <=? n)%nat && (n <=? 122)%nat.

Definition upper_char (c : ascii) : ascii :=
  if is_lower c then ascii_of_nat (nat_of_ascii c - 32) else c.

(** [s.upper()] *)
Fixpoint upper (s : string) : string :=
  match s with
  | EmptyString => EmptyString
  | String c s' => String (upper_char c) (upper s')
  end.

(** [s.lstrip()], [s.rstrip()], [s.strip()] *)
Fixpoint lstrip (s : string) : string :=
  match s with
  | EmptyString => EmptyString
  | String c s' => if isspace c then lstrip s' else s
  end.

Fixpoint rstrip (s : string) : string :=
  match s with
  | EmptyString => EmptyString
  | String c s' =>
      match rstrip s' with
      | EmptyString => if isspace c then EmptyString else String c EmptyString
      | r => String c r
      end
  end.

Definition strip (s : string) : string := rstrip (lstrip s).

(** [s.split()]: the words between runs of white space; [w] is the word
    being read. *)
Fixpoint split_go (w s : string) : list string :=
  match s with
  | EmptyString => if is_empty w then [] else [w]
  | String c s' =>
      if isspace c
      then (if is_empty w then split_go EmptyString s'
            else w :: split_go EmptyString s')
      else split_go (w +++ String c EmptyString) s'
  end.

Definition split (s : string) : list string := split_go EmptyString s.

(** [sep.join(l)] *)
Definition join (sep : string) (l : list string) : string :=
  String.concat sep l.

(** [s * n] *)
Fixpoint repeat_str (s : string) (n : nat) : string :=
  match n with
  | O => EmptyString
  | S n' => s +++ repeat_str s n'
  end.

(** [x in S] for a set of strings given by its elements *)
Definition mem (x : string) (S : list string) : bool :=
  existsb (String.eqb x) S.

(** [str(n)] for a non-negative integer *)
Definition str_of_nat (n : nat) : string :=
  NilEmpty.string_of_uint (Nat.to_uint n).

(** [l[-1]] and [l[-1] = v]; [None] is [IndexError]. *)
Fixpoint get_last {A} (l : list A) : option A :=
  match l with
  | [] => None
  | [x] => Some x
  | _ :: l' => get_last l'
  end.

Fixpoint set_last {A} (l : list A) (v : A) : option (list A) :=
  match l with
  | [] => None
  | [_] => Some [v]
  | x :: l' => option_map (cons x) (set_last l' v)
  end.

(** [l[0]] *)
Definition get_first {A} (l : list A) : option A := nth_error l 0.

Definition nonempty {A} (l : list A) : bool :=
  match l with [] => false | _ :: _ => true end.

End PyStr.

(** The error monad of the embedding. *)
Definition bind {A B} (m : option A) (k : A -> option B) : option B :=
match m with
| Some a => k a
| None => None
end.

Notation "x <- m ;; k" := (bind m (fun x => k))
(at level 61, m at next level, right associativity).

(** ** formatter.py: class SQLFormatter *)

Module SQLFormatter.
Import PyStr.

Definition KEYWORDS : list string :=
  [ "SELECT"; "FROM"; "WHERE"; "GROUP BY"; "ORDER BY"; "HAVING";
    "INSERT INTO"; "VALUES"; "UPDATE"; "SET"; "DELETE";
    "CREATE TABLE"; "DROP TABLE"; "ALTER TABLE"; "TRUNCATE TABLE";
    "PRIMARY KEY"; "FOREIGN KEY"; "REFERENCES"; "CONSTRAINT";
    "IF EXISTS"; "NOT NULL"; "UNIQUE"; "CHECK";
    "JOIN"; "LEFT JOIN"; "RIGHT JOIN"; "INNER JOIN"; "OUTER JOIN"; "ON";
    "AS"; "DISTINCT"; "LIMIT"; "OFFSET"; "UNION"; "ALL";
    "GRANT"; "REVOKE"; "TO"; "WITH"; "OPTION";
    "COMMIT"; "ROLLBACK"; "SAVEPOINT"; "TRANSACTION"; "BEGIN" ].

Definition CLAUSE_KEYWORDS : list string :=
  [ "SELECT"; "FROM"; "WHERE"; "GROUP BY"; "ORDER BY"; "HAVING";
    "VALUES"; "SET"; "INSERT INTO"; "UPDATE"; "DELETE";
    "CREATE TABLE"; "DROP TABLE"; "ALTER TABLE"; "TRUNCATE TABLE";
    "GRANT"; "REVOKE" ].

Definition VALID_STARTS : list string :=
  [ "SELECT"; "INSERT INTO"; "UPDATE"; "DELETE";
    "CREATE TABLE"; "DROP TABLE"; "ALTER TABLE"; "TRUNCATE TABLE";
    "GRANT"; "REVOKE"; "COMMIT"; "ROLLBACK"; "BEGIN" ].

(** The literal sets of [_format_tokens]. *)
Definition PRIVILEGE_WORDS : list string :=
  [ "SELECT"; "INSERT"; "UPDATE"; "DELETE"; "ALL" ].
Definition LIST_CLAUSES : list string :=
  [ "SELECT"; "INSERT INTO"; "VALUES"; "CREATE TABLE" ].
Definition GRANT_WORDS : list string := [ "GRANT"; "REVOKE" ].
Definition LIST_EXIT : list string := [ "ON"; "TO" ].

(** *** _tokenize *)

Definition is_struct (c : ascii) : bool :=
  (c =? "(")%char || (c =? ")")%char || (c =? ",")%char || (c =? ";")%char.

(** [re.sub(r"([(),;])", r" \1 ", sql)] *)
Fixpoint pad_punct (s : string) : string :=
  match s with
  | EmptyString => EmptyString
  | String c s' =>
      if is_struct c
      then String " " (String c (String " " (pad_punct s')))
      else String c (pad_punct s')
  end.

Definition _tokenize (sql : string) : list string :=
  split (pad_punct sql).

(** *** _merge_compounds

    The cursor [i] of the [while] loop is the head of the remaining
    list; [i + 1 < len(tokens)] and [i + 2 < len(tokens)] are the
    patterns with two and three elements. *)
Fixpoint _merge_compounds (tokens : list string) : list string :=
  match tokens with
  | [] => []
  | tok :: rest1 =>
      let t0 := upper tok in
      let single :=
        (if mem t0 KEYWORDS then t0 else tok) :: _merge_compounds rest1 in
      match rest1 with
      | [] => single
      | tok1 :: rest2 =>
          let t2 := t0 +++ " " +++ upper tok1 in
          let try2 :=
            if mem t2 KEYWORDS then t2 :: _merge_compounds rest2
            else single in
          match rest2 with
          | [] => try2
          | tok2 :: rest3 =>
              let t3 := t0 +++ " " +++ upper tok1 +++ " " +++ upper tok2 in
              if mem t3 KEYWORDS then t3 :: _merge_compounds rest3
              else try2
          end
      end
  end.

(** *** _format_tokens *)

Record fstate : Type := mkState {
  lines : list string;
  current : list string;
  indent_level : Z;
  inside_list : bool;
  in_grant_priv_list : bool
}.

Definition indent : string := "    ".

Definition init_state : fstate := mkState [] [] 0 false false.

Definition flush_line (force : bool) (st : fstate) : fstate :=
  if nonempty (current st) || force then
    let line := strip (join " " (current st)) in
    let lines' :=
      if is_empty line then lines st
      else lines st ++
           [repeat_str indent (Z.to_nat (indent_level st)) +++ line] in
    mkState lines' [] (indent_level st) (inside_list st)
            (in_grant_priv_list st)
  else st.

Definition append_current (tok : string) (st : fstate) : fstate :=
  mkState (lines st) (current st ++ [tok]) (indent_level st)
          (inside_list st) (in_grant_priv_list st).

(** [current[-1] = current[-1] + suffix] *)
Definition attach_current (suffix : string) (st : fstate) : option fstate :=
  last <- get_last (current st) ;;
  cur' <- set_last (current st) (last +++ suffix) ;;
  Some (mkState (lines st) cur' (indent_level st) (inside_list st)
                (in_grant_priv_list st)).

(** One iteration of the [while] loop on the token [tok]. *)
Definition step (st : fstate) (tok : string) : option fstate :=
  if mem tok CLAUSE_KEYWORDS
     && negb (in_grant_priv_list st && mem tok PRIVILEGE_WORDS)
  then
    let st := flush_line false st in
    let st := append_current tok st in
    let il := if mem tok LIST_CLAUSES then true else inside_list st in
    Some (mkState (lines st) (current st) (indent_level st) il
                  (mem tok GRANT_WORDS))
  else if (tok =? ",")%string then
    st <- (if nonempty (current st) then attach_current "," st
           else Some st) ;;
    Some (if inside_list st then flush_line false st else st)
  else if (tok =? "(")%string then
    let st := append_current "(" st in
    let st := flush_line false st in
    Some (mkState (lines st) (current st) (indent_level st + 1)
                  (inside_list st) (in_grant_priv_list st))
  else if (tok =? ")")%string then
    let st := flush_line false st in
    let st := mkState (lines st) (current st)
                      (Z.max 0 (indent_level st - 1))
                      (inside_list st) (in_grant_priv_list st) in
    let st := append_current ")" st in
    let st := flush_line false st in
    Some (mkState (lines st) (current st) (indent_level st) false
                  (in_grant_priv_list st))
  else if (tok =? ";")%string then
    st <- (if nonempty (current st) then
             st <- attach_current ";" st ;;
             Some (flush_line false st)
           else if nonempty (lines st) then
             last <- get_last (lines st) ;;
             lines' <- set_last (lines st) (rstrip last +++ ";") ;;
             Some (mkState lines' (current st) (indent_level st)
                           (inside_list st) (in_grant_priv_list st))
           else Some st) ;;
    Some (mkState (lines st ++ [EmptyString]) (current st) 0 false false)
  else
    if in_grant_priv_list st && mem tok LIST_EXIT then
      let st := append_current tok st in
      Some (mkState (lines st) (current st) (indent_level st)
                    (inside_list st) false)
    else Some (append_current tok st).

(** The [while i < len(tokens)] loop. *)
Fixpoint run (st : fstate) (tokens : list string) : option fstate :=
  match tokens with
  | [] => Some st
  | tok :: rest => st' <- step st tok ;; run st' rest
  end.

Definition _format_tokens (tokens : list string) : option string :=
  st <- run init_state tokens ;;
  let st := flush_line false st in
  Some (rstrip (join NL (lines st))).

(** *** _check_syntax *)

Definition msg_start (tok : string) : string :=
  "SQL must start with a keyword, got '" +++ tok +++ "'.".
Definition msg_unmatched (idx : nat) : string :=
  "Unmatched ')' at token " +++ str_of_nat idx +++ ".".
Definition msg_unbalanced : string := "Parentheses are not balanced.".
Definition msg_semicolon : string := "SQL should end with ';'.".

Definition check_start (tokens : list string) : option (list string) :=
  if nonempty tokens then
    t0 <- get_first tokens ;;
    Some (if negb (mem (upper t0) VALID_STARTS) then [msg_start t0] else [])
  else Some [].

(** The [for idx, t in enumerate(tokens)] loop; the result is the final
    [balance] and the diagnostics appended by the loop. *)
Fixpoint paren_scan (idx : nat) (balance : Z) (tokens : list string)
  : Z * list string :=
  match tokens with
  | [] => (balance, [])
  | t :: rest =>
      if (t =? "(")%string then paren_scan (S idx) (balance + 1) rest
      else if (t =? ")")%string then
        let balance := (balance - 1)%Z in
        if (balance <? 0)%Z then (balance, [msg_unmatched idx])
        else paren_scan (S idx) balance rest
      else paren_scan (S idx) balance rest
  end.

Definition check_parens (tokens : list string) : list string :=
  let '(balance, errs) := paren_scan 0 0 tokens in
  errs ++ (if (balance =? 0)%Z then [] else [msg_unbalanced]).

Definition check_end (tokens : list string) : option (list string) :=
  if nonempty tokens then
    tl <- get_last tokens ;;
    Some (if negb (tl =? ";")%string then [msg_semicolon] else [])
  else Some [].

Definition _check_syntax (tokens : list string) : option (list string) :=
  e1 <- check_start tokens ;;
  e3 <- check_end tokens ;;
  Some (e1 ++ check_parens tokens ++ e3).

(** *** SQLFormatter(sql).format_and_check() *)
Definition format_and_check (sql : string)
  : option (string * list string) :=
  let original_sql := strip sql in
  let tokens := _tokenize original_sql in
  let merged := _merge_compounds tokens in
  formatted_sql <- _format_tokens merged ;;
  errors <- _check_syntax merged ;;
  Some (formatted_sql, errors).

End SQLFormatter.

(** ** sql_tester.py: highlight_sql_tokenize *)

Module Highlight.
Import PyStr.

(** *** The character classes of the patterns *)

Definition in_range (lo hi : nat) (c : ascii) : bool :=
  let n := nat_of_ascii c in (lo <=? n)%nat && (n <=? hi)%nat.

Definition is_digit (c : ascii) : bool := in_range 48 57 c.
Definition is_alpha (c : ascii) : bool :=
  in_range 65 90 c || in_range 97 122 c.
(** [[A-Za-z_]] *)
Definition is_ident_start (c : ascii) : bool :=
  is_alpha c || (c =? "_")%char.
(** [[A-Za-z0-9_$]] *)
Definition is_ident_char (c : ascii) : bool :=
  is_alpha c || is_digit c || (c =? "_")%char || (c =? "$")%char.
(** [\w] *)
Definition is_word (c : ascii) : bool :=
  is_alpha c || is_digit c || (c =? "_")%char.
(** [[ \t\r\n\f]] *)
Definition is_blank (c : ascii) : bool :=
  (c =? " ")%char || (c =? "009")%char || (c =? "013")%char
  || (c =? "010")%char || (c =? "012")%char.
(** [[^\n]] *)
Definition not_newline (c : ascii) : bool := negb (c =? "010")%char.

Definition dquote : ascii := "034"%char.
Definition squote : ascii := "039"%char.
Definition btick : ascii := "096"%char.

(** Length of the longest prefix of [s] whose characters satisfy [p]:
    a greedy [[...]*]. *)
Fixpoint span (p : ascii -> bool) (s : string) : nat :=
  match s with
  | EmptyString => 0
  | String c s' => if p c then S (span p s') else 0
  end.

Fixpoint drop (n : nat) (s : string) : string :=
  match n, s with
  | O, _ => s
  | S _, EmptyString => EmptyString
  | S n', String _ s' => drop n' s'
  end.

(** [s[a:b]] for [0 <= a], [0 <= b] *)
Definition slice (s : string) (a b : nat) : string :=
  substring a (b - a) s.

(** *** The alternatives of [master]

    Each matcher takes the input from the current position and gives the
    length of the match of its pattern there, as the backtracking engine
    of [re] finds it, or [None]. *)

(** [[ \t\r\n\f]+] *)
Definition match_space (s : string) : option nat :=
  match span is_blank s with
  | O => None
  | n => Some n
  end.

(** [--[^\n]*] *)
Definition match_line_comment (s : string) : option nat :=
  match s with
  | String "-" (String "-" r) => Some (2 + span not_newline r)
  | _ => None
  end.

(** The lazy [.*?\*/] under DOTALL: up to and including the first
    star-slash. *)
Fixpoint to_star_slash (s : string) : option nat :=
  match s with
  | EmptyString => None
  | String c s' =>
      match s' with
      | String c' _ =>
          if (c =? "*")%char && (c' =? "/")%char then Some 2
          else option_map S (to_star_slash s')
      | EmptyString => None
      end
  end.

(** [/\*.*?\*/] *)
Definition match_block_comment (s : string) : option nat :=
  match s with
  | String "/" (String "*" r) => option_map (Nat.add 2) (to_star_slash r)
  | _ => None
  end.

(** [(?:qq|[^q])*q] for a quote character [q]: the greedy repetition
    takes a doubled quote as one item and goes on; when no closing quote
    follows, the engine backtracks and closes at the first quote of the
    pair. *)
Fixpoint quoted_body (q : ascii) (s : string) : option nat :=
  match s with
  | EmptyString => None
  | String c s' =>
      if (c =? q)%char then
        match s' with
        | String c' s'' =>
            if (c' =? q)%char then
              match quoted_body q s'' with
              | Some n => Some (2 + n)
              | None => Some 1
              end
            else Some 1
        | EmptyString => Some 1
        end
      else option_map S (quoted_body q s')
  end.

(** ['(?:''|[^'])*'] and the same with a backtick *)
Definition match_quoted (q : ascii) (s : string) : option nat :=
  match s with
  | String c r => if (c =? q)%char then option_map S (quoted_body q r)
                  else None
  | EmptyString => None
  end.

(** In the double-quote pattern the first alternative of the repetition
    is the character class of the quote itself, so the repetition takes
    any character and the match closes at the last double quote of the
    input. *)
Fixpoint to_last (q : ascii) (s : string) : option nat :=
  match s with
  | EmptyString => None
  | String c s' =>
      match to_last q s' with
      | Some n => Some (S n)
      | None => if (c =? q)%char then Some 1 else None
      end
  end.

Definition match_dq_string (s : string) : option nat :=
  match s with
  | String c r => if (c =? dquote)%char then option_map S (to_last dquote r)
                  else None
  | EmptyString => None
  end.

(** The four forms [\?], [:[A-Za-z_]\w*], [@[A-Za-z_]\w*] and [\$[A-Za-z_]\w*] *)
Definition match_param (s : string) : option nat :=
  match s with
  | String c r =>
      if (c =? "?")%char then Some 1
      else if (c =? ":")%char || (c =? "@")%char || (c =? "$")%char then
        match r with
        | String c' r' =>
            if is_ident_start c' then Some (2 + span is_word r') else None
        | EmptyString => None
        end
      else None
  | EmptyString => None
  end.

(** [\.\d+] *)
Definition match_fraction (s : string) : option nat :=
  match s with
  | String "." r =>
      match span is_digit r with
      | O => None
      | n => Some (S n)
      end
  | _ => None
  end.

(** [(?:\d+(?:\.\d+)?|\.\d+)] *)
Definition match_number (s : string) : option nat :=
  match span is_digit s with
  | O => match_fraction s
  | n =>
      match match_fraction (drop n s) with
      | Some k => Some (n + k)
      | None => Some n
      end
  end.

(** [(?:<>|!=|<=|>=|\|\||[=<>+\-*/%])] *)
Definition is_op_char (c : ascii) : bool :=
  (c =? "=")%char || (c =? "<")%char || (c =? ">")%char
  || (c =? "+")%char || (c =? "-")%char || (c =? "*")%char
  || (c =? "/")%char || (c =? "%")%char.

Definition is_op2 (c c' : ascii) : bool :=
  ((c =? "<")%char && (c' =? ">")%char)
  || ((c =? "!")%char && (c' =? "=")%char)
  || ((c =? "<")%char && (c' =? "=")%char)
  || ((c =? ">")%char && (c' =? "=")%char)
  || ((c =? "|")%char && (c' =? "|")%char).

Definition match_op (s : string) : option nat :=
  match s with
  | String c r =>
      match r with
      | String c' _ =>
          if is_op2 c c' then Some 2
          else if is_op_char c then Some 1 else None
      | EmptyString => if is_op_char c then Some 1 else None
      end
  | EmptyString => None
  end.

(** [[(),.;]] *)
Definition is_punct (c : ascii) : bool :=
  (c =? "(")%char || (c =? ")")%char || (c =? ",")%char
  || (c =? ".")%char || (c =? ";")%char.

Definition match_punct (s : string) : option nat :=
  match s with
  | String c _ => if is_punct c then Some 1 else None
  | EmptyString => None
  end.

(** [[A-Za-z_][A-Za-z0-9_$]*] *)
Definition match_ident (s : string) : option nat :=
  match s with
  | String c r => if is_ident_start c then Some (S (span is_ident_char r))
                  else None
  | EmptyString => None
  end.

(** The named groups of [master], in the order of the alternation. *)
Inductive group : Type :=
| g_ws | g_lc | g_bc | g_sq | g_dq | g_bt
| g_param | g_number | g_op | g_punct | g_ident.

Definition alternatives : list (group * (string -> option nat)) :=
  [ (g_ws, match_space); (g_lc, match_line_comment);
    (g_bc, match_block_comment); (g_sq, match_quoted squote);
    (g_dq, match_dq_string); (g_bt, match_quoted btick);
    (g_param, match_param); (g_number, match_number);
    (g_op, match_op); (g_punct, match_punct); (g_ident, match_ident) ].

(** The first alternative that matches wins. *)
Fixpoint first_match (alts : list (group * (string -> option nat)))
         (s : string) : option (group * nat) :=
  match alts with
  | [] => None
  | (g, f) :: alts' =>
      match f s with
      | Some n => Some (g, n)
      | None => first_match alts' s
      end
  end.

Definition master (s : string) : option (group * nat) :=
  first_match alternatives s.

(** A match object: [m.start()], [m.end()], [m.lastgroup]. *)
Record Match : Type := mkMatch {
  m_start : nat;
  m_end : nat;
  lastgroup : group
}.

(** [master.finditer(s)]: the matches from left to right, the search
    resuming at the end of the last match, or one character further when
    nothing matches at a position.  [rest] is the input from [pos] on;
    no alternative matches the empty string, so [fuel = len(s)] steps
    reach the end of the input. *)
Fixpoint finditer_from (fuel pos : nat) (rest : string) : list Match :=
  match fuel with
  | O => []
  | S fuel' =>
      match rest with
      | EmptyString => []
      | String _ rest' =>
          match master rest with
          | Some (g, n) =>
              mkMatch pos (pos + n) g
                :: finditer_from fuel' (pos + n) (drop n rest)
          | None => finditer_from fuel' (S pos) rest'
          end
      end
  end.

Definition finditer (s : string) : list Match :=
  finditer_from (String.length s) 0 s.

Definition KEYWORDS : list string :=
  [ "ABORT"; "ABS"; "ABSOLUTE"; "ACCESS"; "ACTION"; "ADD"; "AFTER"; "ALL";
    "ALTER"; "ALWAYS"; "ANALYZE"; "AND"; "AS"; "ASC"; "ATTACH";
    "AUTOINCREMENT"; "BEFORE"; "BEGIN"; "BETWEEN"; "BINARY"; "BLOB"; "BY";
    "CASCADE"; "CASE"; "CAST"; "CHECK"; "COLLATE"; "COLUMN"; "COMMIT";
    "CONFLICT"; "CONSTRAINT"; "CREATE"; "CROSS"; "CURRENT";
    "CURRENT_DATE"; "CURRENT_TIME"; "CURRENT_TIMESTAMP"; "DATABASE";
    "DEFAULT"; "DEFERRABLE"; "DEFERRED"; "DELETE"; "DESC"; "DETACH";
    "DISTINCT"; "DO"; "DROP"; "EACH"; "ELSE"; "END"; "ESCAPE"; "EXCEPT";
    "EXCLUDE"; "EXCLUSIVE"; "EXISTS"; "EXPLAIN"; "FAIL"; "FILTER";
    "FIRST"; "FOLLOWING"; "FOR"; "FOREIGN"; "FROM"; "FULL"; "GENERATED";
    "GLOB"; "GROUP"; "HAVING"; "IF"; "IGNORE"; "IMMEDIATE"; "IN"; "INDEX";
    "INDEXED"; "INITIALLY"; "INNER"; "INSERT"; "INSTEAD"; "INTERSECT";
    "INTO"; "IS"; "ISNULL"; "JOIN"; "KEY"; "LAST"; "LEFT"; "LIKE";
    "LIMIT"; "MATCH"; "MATERIALIZED"; "NATURAL"; "NO"; "NOT"; "NOTHING";
    "NOTNULL"; "NULL"; "NULLS"; "OF"; "OFFSET"; "ON"; "OR"; "ORDER";
    "OTHERS"; "OUTER"; "OVER"; "PARTITION"; "PLAN"; "PRAGMA"; "PRECEDING";
    "PRIMARY"; "QUERY"; "RAISE"; "RANGE"; "RECURSIVE"; "REFERENCES";
    "REGEXP"; "REINDEX"; "RELEASE"; "RENAME"; "REPLACE"; "RESTRICT";
    "RETURNING"; "RIGHT"; "ROLLBACK"; "ROW"; "ROWS"; "SAVEPOINT";
    "SELECT"; "SET"; "TABLE"; "TEMP"; "TEMPORARY"; "THEN"; "TIES"; "TO";
    "TRANSACTION"; "TRIGGER"; "UNBOUNDED"; "UNION"; "UNIQUE"; "UPDATE";
    "USING"; "VACUUM"; "VALUES"; "VIEW"; "VIRTUAL"; "WHEN"; "WHERE";
    "WINDOW"; "WITH"; "WITHOUT"; "QUALIFY" ].

(** A token of the result: [(category, text)]. *)
Definition token : Type := string * string.

(** The body of the [for m in master.finditer(s)] loop on the state
    [(pos, out)]. *)
Definition lex_step (s : string) (st : nat * list token) (m : Match)
  : nat * list token :=
  let '(pos, out) := st in
  let out :=
    if negb (m_start m =? pos)%nat
    then out ++ [("ident", slice s pos (m_start m))]
    else out in
  let pos := m_end m in
  let val := slice s (m_start m) (m_end m) in
  let out :=
    match lastgroup m with
    | g_ws => out ++ [("ws", val)]
    | g_lc | g_bc => out ++ [("comment", val)]
    | g_sq | g_dq | g_bt => out ++ [("string", val)]
    | g_number => out ++ [("number", val)]
    | g_param => out ++ [("param", val)]
    | g_op => out ++ [("op", val)]
    | g_punct => out ++ [("punct", val)]
    | g_ident =>
        let u := upper val in
        if mem u KEYWORDS then out ++ [("keyword", u)]
        else out ++ [("ident", val)]
    end in
  (pos, out).

Definition highlight_sql_tokenize (s : string) : list token :=
  let '(pos, out) := fold_left (lex_step s) (finditer s) (0, []) in
  if (pos <? String.length s)%nat
  then out ++ [("ident", slice s pos (String.length s))]
  else out.

(** The text a renderer lays out: the [raw_text] fields in order. *)
Definition raw_text (toks : list token) : string :=
  String.concat EmptyString (map snd toks).

End Highlight.

(** ** sql_tester.py: split_statements *)

Module Splitter.
Import PyStr.

(** The variables of the loop: [out], [buf] (its characters joined),
    [in_s] and [qt] (empty, or the quote character that opened the
    string). *)
Record sstate : Type := mkS {
  out : list string;
  buf : string;
  in_s : bool;
  qt : string
}.

Definition init : sstate := mkS [] EmptyString false EmptyString.

Definition is_quote (ch : ascii) : bool :=
  (ch =? "039")%char || (ch =? "034")%char.

Definition push (ch : ascii) (st : sstate) : sstate :=
  mkS (out st) (buf st +++ String ch EmptyString) (in_s st) (qt st).

(** The body of [for ch in sql]. *)
Definition split_step (st : sstate) (ch : ascii) : sstate :=
  if is_quote ch then
    let st :=
      if negb (in_s st)
      then mkS (out st) (buf st) true (String ch EmptyString)
      else if (qt st =? String ch EmptyString)%string
           then mkS (out st) (buf st) false (qt st)
           else st in
    push ch st
  else if (ch =? ";")%char && negb (in_s st) then
    let seg := strip (buf st) in
    mkS (if is_empty seg then out st else out st ++ [seg])
        EmptyString (in_s st) (qt st)
  else push ch st.

Fixpoint scan (st : sstate) (sql : string) : sstate :=
  match sql with
  | EmptyString => st
  | String ch rest => scan (split_step st ch) rest
  end.

(** The statements after the loop: the tail of the buffer counts when it
    is not blank. *)
Definition close (st : sstate) : list string :=
  let tail := strip (buf st) in
  if is_empty tail then out st else out st ++ [tail].

Definition split_statements (sql : string) : list string :=
  close (scan init sql).

End Splitter.

(** ** Notions of the specification *)

Module Spec.
Import PyStr SQLFormatter.

(** The paren balance of a token sequence: its open parentheses minus
    its close parentheses. *)
Definition depth (tokens : list string) : Z :=
  Z.of_nat (count_occ string_dec tokens "(")
  - Z.of_nat (count_occ string_dec tokens ")").

(** The index of the first token that drives the balance negative. *)
Definition first_unmatched (tokens : list string) : option nat :=
  find (fun k => (depth (firstn (S k) tokens) <? 0)%Z)
       (seq 0 (List.length tokens)).

(** A diagnostic of the statement-start check. *)
Definition is_start_diag (d : string) : bool :=
  prefix "SQL must start with a keyword, got '" d.

(** A token covers a span of the input when its text is the span, or when
    it is a keyword token and its text is the span in upper case. *)
Definition covers (tok : Highlight.token) (span : string) : Prop :=
  snd tok = span \/ (fst tok = "keyword" /\ snd tok = upper span).


(** *** Notions used by the proofs *)

(** Number of spaces of a string. *)
Fixpoint spaces (s : string) : nat :=
  match s with
  | EmptyString => 0
  | String c s' => (if (c =? " ")%char then 1 else 0) + spaces s'
  end.

(** [s] ends with [suf]. *)
Fixpoint ends_with (suf s : string) : bool :=
  (s =? suf)%string
  || match s with
     | EmptyString => false
     | String _ s' => ends_with suf s'
     end.

(** [w] is never the second word of a phrase of the table. *)
Definition not_continuation (w : string) : Prop :=
  forall x, mem (x +++ " " +++ w) KEYWORDS = false.

(** What the merger emits for a token taken alone. *)
Definition single (tok : string) : string :=
  if mem (upper tok) KEYWORDS then upper tok else tok.

(** The window of two tokens, upper-cased and joined by a space. *)
Definition pair (a b : string) : string := upper a +++ " " +++ upper b.

(** The change of the paren balance at a token. *)
Definition paren_delta (t : string) : Z :=
  if (t =? "(")%string then 1%Z
  else if (t =? ")")%string then (-1)%Z else 0%Z.

(** [s[:n]] *)
Fixpoint take (n : nat) (s : string) : string :=
  match n, s with
  | O, _ => EmptyString
  | S _, EmptyString => EmptyString
  | S n', String c s' => String c (take n' s')
  end.

(** A match length is between one and the length of the input. *)
Definition within (s : string) (r : option nat) : Prop :=
  forall n, r = Some n -> 1 <= n <= String.length s.

(** What is left to do after the loop: the tail of the input that no
    match covers. *)
Definition finish (s : string) (st : nat * list Highlight.token)
  : list Highlight.token :=
  let '(pos, out) := st in
  if (pos <? String.length s)%nat
  then out ++ [("ident", Highlight.slice s pos (String.length s))]
  else out.

(** The words of a list of text fragments. *)
Definition flat (l : list string) : list string :=
  List.concat (map _tokenize l).

(** A string of white space only. *)
Fixpoint all_space (s : string) : bool :=
  match s with
  | EmptyString => true
  | String c s' => isspace c && all_space s'
  end.

(** The words held by a state of the formatter: those of the lines
    produced so far, then those of the pending line. *)
Definition words (st : fstate) : list string :=
  flat (lines st) ++ flat (current st).

(** The tokens that leave no trace in the state: a comma that meets an
    empty pending line, and a semicolon that meets an empty pending line
    and no line at all. *)
Definition dropped (st : fstate) (tok : string) : bool :=
  ((tok =? ",")%string && negb (nonempty (current st)))
  || ((tok =? ";")%string && negb (nonempty (current st))
      && negb (nonempty (lines st))).

(** The tokens of a run from [st] that are not dropped. *)
Fixpoint kept_tokens (st : fstate) (tokens : list string) : list string :=
  match tokens with
  | [] => []
  | tok :: rest =>
      match step st tok with
      | Some st' =>
          (if dropped st tok then [] else [tok]) ++ kept_tokens st' rest
      | None => []
      end
  end.

(** The four tokens the formatter treats as punctuation. *)
Definition is_structural (tok : string) : bool :=
  (tok =? ",")%string || (tok =? "(")%string
  || (tok =? ")")%string || (tok =? ";")%string.

(** A string that the tokenizer leaves as it is. *)
Definition clean (t : string) : Prop := _tokenize t = [t].

(** A character that is neither white space nor structural. *)
Definition plain (c : ascii) : bool := negb (isspace c) && negb (is_struct c).

(** A string of plain characters only. *)
Fixpoint all_plain (s : string) : bool :=
  match s with
  | EmptyString => true
  | String c s' => plain c && all_plain s'
  end.

(** The two shapes of a token: a run of plain characters, or one
    structural character. *)
Definition word_shape (t : string) : Prop :=
  (all_plain t = true /\ is_empty t = false)
  \/ (exists c, is_struct c = true /\ t = String c EmptyString).

(** After [e], the first word of [rest] does not complete a phrase. *)
Definition next_ok (e : string) (rest : list string) : Prop :=
  forall b fr, flat rest = b :: fr -> mem (pair e b) KEYWORDS = false.

(** The sequences the merger produces from clean tokens: phrases of the
    table and single tokens, a single token never followed by a word that
    would have made a phrase with it. *)
Inductive wm : list string -> Prop :=
| wm_nil : wm []
| wm_phrase (a b : string) (rest : list string) :
    clean a -> clean b -> mem (pair a b) KEYWORDS = true ->
    wm rest -> wm (pair a b :: rest)
| wm_word (e : string) (rest : list string) :
    clean e -> single e = e -> next_ok e rest ->
    wm rest -> wm (e :: rest).

End Spec.

(** ** Further notions used by the proofs *)

Module SpecMore.
Import PyStr.

(** [c in s] *)
Fixpoint contains (c : ascii) (s : string) : bool :=
  match s with
  | EmptyString => false
  | String x s' => (x =? c)%char || contains c s'
  end.

(** A string that does not begin with white space. *)
Definition head_ok (s : string) : Prop :=
  match s with
  | EmptyString => True
  | String c _ => isspace c = false
  end.

(** A non-empty string that [strip] leaves as it is. *)
Definition stripped (seg : string) : Prop :=
  is_empty seg = false /\ strip seg = seg.

(** A string of white space and semicolons only. *)
Fixpoint all_sep (s : string) : bool :=
  match s with
  | EmptyString => true
  | String c s' => (isspace c || (c =? ";")%char) && all_sep s'
  end.

(** Two states of the splitter that differ at most by a quote character
    that is no longer open. *)
Definition same_mode (st1 st2 : Splitter.sstate) : Prop :=
  Splitter.out st1 = Splitter.out st2
  /\ Splitter.buf st1 = Splitter.buf st2
  /\ Splitter.in_s st1 = Splitter.in_s st2
  /\ (Splitter.in_s st1 = true -> Splitter.qt st1 = Splitter.qt st2).



(** The token that the loop of the highlighter appends for a match. *)
Definition match_token (s : string) (m : Highlight.Match) : Highlight.token :=
  let val := Highlight.slice s (Highlight.m_start m) (Highlight.m_end m) in
  match Highlight.lastgroup m with
  | Highlight.g_ws => ("ws", val)
  | Highlight.g_lc | Highlight.g_bc => ("comment", val)
  | Highlight.g_sq | Highlight.g_dq | Highlight.g_bt => ("string", val)
  | Highlight.g_number => ("number", val)
  | Highlight.g_param => ("param", val)
  | Highlight.g_op => ("op", val)
  | Highlight.g_punct => ("punct", val)
  | Highlight.g_ident =>
      if mem (upper val) Highlight.KEYWORDS then ("keyword", upper val)
      else ("ident", val)
  end.

(** The categories of the tokens of the highlighter. *)
Definition CATEGORIES : list string :=
  [ "ws"; "comment"; "string"; "number"; "param"; "op"; "punct";
    "keyword"; "ident" ].

(** The state [st] with the lines [L] before its own. *)
Definition addl (L : list string) (st : SQLFormatter.fstate)
  : SQLFormatter.fstate :=
  SQLFormatter.mkState (L ++ SQLFormatter.lines st)
                       (SQLFormatter.current st)
                       (SQLFormatter.indent_level st)
                       (SQLFormatter.inside_list st)
                       (SQLFormatter.in_grant_priv_list st).

(** [k] is [m] less some commas. *)
Inductive drops_comma : list string -> list string -> Prop :=
| dc_nil : drops_comma [] []
| dc_keep (x : string) (k m : list string) :
    drops_comma k m -> drops_comma (x :: k) (x :: m)
| dc_drop (k m : list string) :
    drops_comma k m -> drops_comma k ("," :: m).




End SpecMore.

(** * Properties *)

(** ** Facts about the string primitives *)

Module StrFacts.
Import PyStr.

Lemma append_nil_r (s : string) : s +++ EmptyString = s.
Proof. induction s; simpl; congruence. Qed.

Lemma append_assoc (a b c : string) : (a +++ b) +++ c = a +++ b +++ c.
Proof. induction a; simpl; congruence. Qed.

Lemma mem_true_iff (x : string) (l : list string) :
  mem x l = true <-> In x l.
Proof.
  unfold mem. rewrite existsb_exists. split.
  - intros [y [Hin Heq]]. apply String.eqb_eq in Heq. now subst.
  - intros Hin. exists x. split; [assumption | apply String.eqb_refl].
Qed.

Lemma mem_false_iff (x : string) (l : list string) :
  mem x l = false <-> ~ In x l.
Proof.
  rewrite <- mem_true_iff. destruct (mem x l); split; intros; congruence.
Qed.

Lemma get_last_snoc {A} (l : list A) (x : A) : get_last (l ++ [x]) = Some x.
Proof.
  induction l as [|y l IH]; simpl; [reflexivity|].
  destruct (l ++ [x]) eqn:E; [destruct l; discriminate | exact IH].
Qed.

Lemma set_last_snoc {A} (l : list A) (x v : A) :
  set_last (l ++ [x]) v = Some (l ++ [v]).
Proof.
  induction l as [|y l IH]; simpl; [reflexivity|].
  destruct (l ++ [x]) eqn:E; [destruct l; discriminate |].
  rewrite IH. reflexivity.
Qed.

Lemma nonempty_snoc {A} (l : list A) :
  nonempty l = true -> exists l' x, l = l' ++ [x].
Proof.
  destruct l as [|a l]; [discriminate|]. intros _.
  destruct (exists_last (l := a :: l)) as [l' [x E]]; [discriminate|].
  now exists l', x.
Qed.

Lemma get_last_nonempty {A} (l : list A) :
  nonempty l = true -> exists x, get_last l = Some x.
Proof.
  intros H. destruct (nonempty_snoc _ H) as [l' [x ->]].
  exists x. apply get_last_snoc.
Qed.

Lemma cons_eq_inv {A} (a b : A) (l m : list A) :
  a :: l = b :: m -> a = b /\ l = m.
Proof. intros H. injection H as -> ->. now split. Qed.

Lemma nonempty_false {A} (l : list A) : nonempty l = false -> l = [].
Proof. destruct l; [reflexivity | discriminate]. Qed.

End StrFacts.

(** ** The formatter never raises *)

Module Totality.
Import PyStr SQLFormatter StrFacts.

Lemma attach_current_total (suffix : string) (st : fstate) :
  nonempty (current st) = true ->
  exists st', attach_current suffix st = Some st'.
Proof.
  intros H. destruct (nonempty_snoc _ H) as [l [x E]].
  unfold attach_current. rewrite E, get_last_snoc. simpl.
  rewrite set_last_snoc. simpl. eauto.
Qed.

Lemma step_total (st : fstate) (tok : string) :
  exists st', step st tok = Some st'.
Proof.
  unfold step.
  destruct (mem tok CLAUSE_KEYWORDS
            && negb (in_grant_priv_list st && mem tok PRIVILEGE_WORDS));
    [eauto|].
  destruct (tok =? ",")%string.
  { destruct (nonempty (current st)) eqn:E; simpl; [|eauto].
    destruct (attach_current_total "," st E) as [st' ->]. simpl. eauto. }
  destruct (tok =? "(")%string; [eauto|].
  destruct (tok =? ")")%string; [eauto|].
  destruct (tok =? ";")%string.
  { destruct (nonempty (current st)) eqn:E.
    - destruct (attach_current_total ";" st E) as [st' ->]. simpl. eauto.
    - destruct (nonempty (lines st)) eqn:El; simpl; [|eauto].
      destruct (nonempty_snoc _ El) as [l [x Ex]].
      rewrite Ex, get_last_snoc. simpl. rewrite set_last_snoc. simpl. eauto. }
  destruct (in_grant_priv_list st && mem tok LIST_EXIT); eauto.
Qed.

Lemma run_total (tokens : list string) :
  forall st, exists st', run st tokens = Some st'.
Proof.
  induction tokens as [|tok rest IH]; intros st; simpl; [eauto|].
  destruct (step_total st tok) as [st1 ->]. simpl. apply IH.
Qed.

Lemma format_tokens_total (tokens : list string) :
  exists out, _format_tokens tokens = Some out.
Proof.
  unfold _format_tokens.
  destruct (run_total tokens init_state) as [st ->]. simpl. eauto.
Qed.

Lemma check_syntax_total (tokens : list string) :
  exists errs, _check_syntax tokens = Some errs.
Proof.
  unfold _check_syntax, check_start, check_end, get_first.
  destruct tokens as [|t rest]; [simpl; eauto|].
  destruct (get_last_nonempty (t :: rest) eq_refl) as [x E].
  rewrite E. simpl. eauto.
Qed.

(** C2. For every input string, [format_and_check] returns a pair of a
    formatted string and a list of diagnostics: no index operation of the
    formatter or of the checker is reached on an empty list. *)
Theorem format_and_check_total (sql : string) :
  exists formatted errors, format_and_check sql = Some (formatted, errors).
Proof.
  unfold format_and_check.
  destruct (format_tokens_total (_merge_compounds (_tokenize (strip sql))))
    as [out ->].
  destruct (check_syntax_total (_merge_compounds (_tokenize (strip sql))))
    as [errs ->].
  simpl. eauto.
Qed.

End Totality.

(** ** The worked scenarios of the formatter *)

Module Scenarios.
Import PyStr SQLFormatter.

(** C5. [select id,name from t where id=1;] is formatted on four lines,
    the comma of the SELECT list ending the first one, and no diagnostic
    is reported. *)
Theorem scenario_select_list :
  format_and_check "select id,name from t where id=1;"
  = Some ("SELECT id," +++ NL +++ "name" +++ NL +++ "FROM t" +++ NL
          +++ "WHERE id=1;", []).
Proof. vm_compute. reflexivity. Qed.

(** C6. [GRANT SELECT, INSERT ON posts TO bob;] stays on one line: the
    commas of the privilege list do not break it, [ON] ends the list
    inline, and no diagnostic is reported. *)
Theorem scenario_grant_inline :
  format_and_check "GRANT SELECT, INSERT ON posts TO bob;"
  = Some ("GRANT SELECT, INSERT ON posts TO bob;", []).
Proof. vm_compute. reflexivity. Qed.

End Scenarios.

(** ** The syntax checker *)

Module Checker.
Import PyStr SQLFormatter StrFacts Spec.

Lemma depth_nil : depth [] = 0%Z.
Proof. reflexivity. Qed.

Lemma depth_cons (t : string) (l : list string) :
  depth (t :: l) = (paren_delta t + depth l)%Z.
Proof.
  unfold depth, paren_delta. cbn [count_occ].
  destruct (string_dec t "(") as [->|Ho].
  - destruct (string_dec "(" ")") as [E|_]; [discriminate E|].
    rewrite String.eqb_refl, Nat2Z.inj_succ. lia.
  - apply String.eqb_neq in Ho. rewrite Ho.
    destruct (string_dec t ")") as [->|Hc].
    + rewrite String.eqb_refl, Nat2Z.inj_succ. lia.
    + apply String.eqb_neq in Hc. rewrite Hc. lia.
Qed.

Lemma find_seq_shift (f : nat -> bool) (n : nat) :
  forall a,
    find f (seq (S a) n) = option_map S (find (fun k => f (S k)) (seq a n)).
Proof.
  induction n as [|n IH]; intros a; simpl; [reflexivity|].
  destruct (f (S a)); [reflexivity | apply IH].
Qed.

Lemma find_pointwise {A} (f g : A -> bool) (l : list A) :
  (forall x, f x = g x) -> find f l = find g l.
Proof.
  intros H. induction l as [|x l IH]; simpl; [reflexivity|].
  rewrite H, IH. reflexivity.
Qed.

(** The scan started at index [idx] with a balance [b >= 0] stops at the
    first token whose prefix has a negative balance. *)
Lemma paren_scan_find (tokens : list string) :
  forall idx b, (0 <= b)%Z ->
    paren_scan idx b tokens =
    match find (fun k => (b + depth (firstn (S k) tokens) <? 0)%Z)
               (seq 0 (List.length tokens)) with
    | Some k => ((-1)%Z, [msg_unmatched (idx + k)])
    | None => ((b + depth tokens)%Z, [])
    end.
Proof.
  induction tokens as [|t rest IH]; intros idx b Hb.
  - simpl. rewrite depth_nil. f_equal. lia.
  - cbn [List.length seq find firstn].
    rewrite find_seq_shift.
    rewrite (find_pointwise _
               (fun k => (b + paren_delta t + depth (firstn (S k) rest) <? 0)%Z)).
    2:{ intros k. cbn [firstn]. rewrite depth_cons, Z.add_assoc. reflexivity. }
    rewrite depth_cons, depth_nil, (depth_cons t rest).
    unfold paren_delta. cbn [paren_scan].
    destruct (t =? "(")%string.
    { rewrite IH by lia.
      destruct (b + (1 + 0) <? 0)%Z eqn:E0; [apply Z.ltb_lt in E0; lia|].
      destruct (find _ _) as [k|]; cbn [option_map].
      - rewrite Nat.add_succ_r. reflexivity.
      - rewrite Z.add_assoc. reflexivity. }
    destruct (t =? ")")%string.
    { change (b + -1)%Z with (b - 1)%Z.
      replace (b + (-1 + 0))%Z with (b - 1)%Z by lia.
      destruct (b - 1 <? 0)%Z eqn:E.
      - apply Z.ltb_lt in E. replace (b - 1)%Z with (-1)%Z by lia.
        rewrite Nat.add_0_r. reflexivity.
      - apply Z.ltb_ge in E. rewrite IH by lia.
        destruct (find _ _) as [k|]; cbn [option_map].
        + rewrite Nat.add_succ_r. reflexivity.
        + replace (b + (-1 + depth rest))%Z with (b - 1 + depth rest)%Z by lia.
          reflexivity. }
    rewrite IH by lia.
    destruct (b + (0 + 0) <? 0)%Z eqn:E0; [apply Z.ltb_lt in E0; lia|].
    rewrite Z.add_0_r.
    destruct (find _ _) as [k|]; cbn [option_map].
    + rewrite Nat.add_succ_r. reflexivity.
    + reflexivity.
Qed.

(** C7. The paren scan reports the first close parenthesis that makes the
    balance negative, with its token index, and stops there; a balance
    that is not zero where the scan ended is reported as unbalanced
    parentheses.  [CREATE TABLE t (id INT;] yields the unbalanced
    diagnostic alone, so no missing-semicolon diagnostic. *)
Theorem check_parens_spec :
  (forall tokens,
      check_parens tokens =
      match first_unmatched tokens with
      | Some idx => [msg_unmatched idx; msg_unbalanced]
      | None => if (depth tokens =? 0)%Z then [] else [msg_unbalanced]
      end)
  /\ (exists formatted,
         format_and_check "CREATE TABLE t (id INT;"
         = Some (formatted, ["Parentheses are not balanced."]))
  /\ msg_unmatched 1 = "Unmatched ')' at token 1.".
Proof.
  split; [|split; [eexists; vm_compute; reflexivity | reflexivity]].
  intros tokens. unfold check_parens, first_unmatched.
  rewrite (paren_scan_find tokens 0 0) by lia.
  destruct (find _ _) as [k|]; reflexivity.
Qed.

Lemma start_diag_msg_start (t : string) : is_start_diag (msg_start t) = true.
Proof. destruct t; reflexivity. Qed.

Lemma start_diag_parens (tokens : list string) :
  filter is_start_diag (check_parens tokens) = [].
Proof.
  unfold check_parens. destruct (paren_scan 0 0 tokens) as [b errs] eqn:E.
  assert (H : errs = [] \/ exists idx, errs = [msg_unmatched idx]).
  { rewrite paren_scan_find in E by lia.
    destruct (find _ _); inversion E; eauto. }
  destruct H as [->|[idx ->]]; destruct (b =? 0)%Z; reflexivity.
Qed.

(** The diagnostics of a non-empty sequence, check by check. *)
Lemma check_syntax_cons (t : string) (rest : list string) :
  exists x,
    _check_syntax (t :: rest)
    = Some ((if mem (upper t) VALID_STARTS then [] else [msg_start t])
            ++ check_parens (t :: rest)
            ++ (if (x =? ";")%string then [] else [msg_semicolon])).
Proof.
  unfold _check_syntax, check_start, check_end, get_first.
  destruct (get_last_nonempty (t :: rest) eq_refl) as [x E].
  cbn [nonempty nth_error bind]. rewrite E. cbn [bind].
  exists x. destruct (mem (upper t) VALID_STARTS);
    destruct (x =? ";")%string; reflexivity.
Qed.

(** C8. Only the first merged token decides the statement-start check:
    when its upper-case form is not a valid start, the diagnostics begin
    with the start diagnostic naming that token and contain no other
    start diagnostic; when it is a valid start, they contain none,
    whatever follows.  [foo bar;] yields the diagnostic naming [foo]. *)
Theorem check_start_first_token_only :
  (forall t rest,
      exists errs,
        _check_syntax (t :: rest) = Some errs
        /\ filter is_start_diag errs
           = (if mem (upper t) VALID_STARTS then [] else [msg_start t])
        /\ (if mem (upper t) VALID_STARTS then True
            else hd_error errs = Some (msg_start t)))
  /\ (exists formatted,
         format_and_check "foo bar;"
         = Some (formatted, ["SQL must start with a keyword, got 'foo'."])).
Proof.
  split.
  - intros t rest. destruct (check_syntax_cons t rest) as [x E].
    eexists. split; [exact E|].
    rewrite !filter_app, start_diag_parens.
    destruct (mem (upper t) VALID_STARTS); cbn [filter app];
      rewrite ?start_diag_msg_start;
      destruct (x =? ";")%string; split; reflexivity || exact I.
  - eexists. vm_compute. reflexivity.
Qed.

End Checker.

(** ** The keyword merger *)

Module Merger.
Import PyStr SQLFormatter StrFacts Spec.

Lemma spaces_app (a b : string) : spaces (a +++ b) = spaces a + spaces b.
Proof. induction a as [|c a IH]; simpl; [reflexivity|]. rewrite IH. lia. Qed.

Lemma upper_char_space (c : ascii) :
  (upper_char c =? " ")%char = (c =? " ")%char.
Proof. destruct c as [[] [] [] [] [] [] [] []]; reflexivity. Qed.

Lemma upper_char_idem (c : ascii) : upper_char (upper_char c) = upper_char c.
Proof. destruct c as [[] [] [] [] [] [] [] []]; reflexivity. Qed.

Lemma spaces_upper (s : string) : spaces (upper s) = spaces s.
Proof.
  induction s as [|c s IH]; simpl; [reflexivity|].
  rewrite upper_char_space, IH. reflexivity.
Qed.

Lemma upper_idem (s : string) : upper (upper s) = upper s.
Proof.
  induction s as [|c s IH]; simpl; [reflexivity|].
  rewrite upper_char_idem, IH. reflexivity.
Qed.

Lemma upper_app (a b : string) : upper (a +++ b) = upper a +++ upper b.
Proof. induction a as [|c a IH]; simpl; [reflexivity|]. now rewrite IH. Qed.

(** Every phrase of the keyword table has at most two words. *)
Lemma keyword_spaces (k : string) : mem k KEYWORDS = true -> spaces k <= 1.
Proof.
  intros H. apply mem_true_iff in H.
  assert (A : forallb (fun k => (spaces k <=? 1)%nat) KEYWORDS = true)
    by (vm_compute; reflexivity).
  rewrite forallb_forall in A. apply Nat.leb_le. now apply A.
Qed.

Lemma no_three_word_keyword (a b c : string) :
  mem (a +++ " " +++ b +++ " " +++ c) KEYWORDS = false.
Proof.
  destruct (mem _ KEYWORDS) eqn:E; [|reflexivity].
  apply keyword_spaces in E. rewrite !spaces_app in E. simpl in E. lia.
Qed.

Lemma ends_with_app (x suf : string) : ends_with suf (x +++ suf) = true.
Proof.
  induction x as [|c x IH].
  - destruct suf; cbn [append ends_with]; rewrite String.eqb_refl;
      reflexivity.
  - cbn [append ends_with]. rewrite IH. apply orb_true_r.
Qed.

Lemma not_continuation_by_table (w : string) :
  forallb (fun k => negb (ends_with (" " +++ w) k)) KEYWORDS = true ->
  not_continuation w.
Proof.
  intros A x. destruct (mem _ KEYWORDS) eqn:E; [|reflexivity].
  apply mem_true_iff in E. rewrite forallb_forall in A.
  specialize (A _ E). rewrite ends_with_app in A. discriminate.
Qed.

Lemma merge_one (a : string) : _merge_compounds [a] = [single a].
Proof. reflexivity. Qed.

(** With a table of phrases of at most two words, the window of three
    tokens never matches and the loop is decided by the window of two. *)
Lemma merge_two (a b : string) (rest : list string) :
  _merge_compounds (a :: b :: rest) =
  if mem (pair a b) KEYWORDS then pair a b :: _merge_compounds rest
  else single a :: _merge_compounds (b :: rest).
Proof.
  destruct rest as [|c rest]; [reflexivity|].
  cbn [_merge_compounds]. rewrite no_three_word_keyword. reflexivity.
Qed.

Lemma upper_single (a : string) : upper (single a) = upper a.
Proof. unfold single. destruct (mem _ _); [apply upper_idem | reflexivity]. Qed.

Lemma upper_pair (a b : string) : upper (pair a b) = pair a b.
Proof. unfold pair. rewrite !upper_app, !upper_idem. reflexivity. Qed.

(** The merger works on a prefix independently of what follows it, when
    the next token cannot continue a phrase. *)
Lemma merge_app_len (n : nat) :
  forall pre h post,
    List.length pre <= n ->
    not_continuation (upper h) ->
    _merge_compounds (pre ++ h :: post)
    = _merge_compounds pre ++ _merge_compounds (h :: post).
Proof.
  induction n as [|n IH]; intros pre h post Hlen Hh.
  - destruct pre; [reflexivity | simpl in Hlen; lia].
  - destruct pre as [|a [|b pre]]; [reflexivity| |].
    + cbn [app]. rewrite merge_two. unfold pair at 1.
      rewrite Hh. rewrite merge_one. reflexivity.
    + cbn [app]. rewrite !merge_two. simpl in Hlen.
      destruct (mem (pair a b) KEYWORDS).
      * rewrite (IH pre h post) by (try assumption; lia). reflexivity.
      * change (b :: pre ++ h :: post) with ((b :: pre) ++ h :: post).
        rewrite (IH (b :: pre) h post) by (try assumption; simpl; lia).
        reflexivity.
Qed.

Lemma merge_app (pre : list string) (h : string) (post : list string) :
  not_continuation (upper h) ->
  _merge_compounds (pre ++ h :: post)
  = _merge_compounds pre ++ _merge_compounds (h :: post).
Proof. apply (merge_app_len (List.length pre)). lia. Qed.

(** The first token of the merged sequence. *)
Lemma merge_head (b : string) (rest : list string) :
  exists y m, _merge_compounds (b :: rest) = y :: m
              /\ (upper y = upper b \/ 1 <= spaces y).
Proof.
  destruct rest as [|c rest].
  - exists (single b), []. split; [reflexivity|]. left. apply upper_single.
  - rewrite merge_two. destruct (mem (pair b c) KEYWORDS).
    + eexists _, _. split; [reflexivity|]. right.
      unfold pair. rewrite !spaces_app. simpl. lia.
    + eexists _, _. split; [reflexivity|]. left. apply upper_single.
Qed.

(** A phrase of the table is never left split in the merged sequence. *)
Lemma merge_no_split_len (w1 w2 : string) (n : nat) :
  mem (w1 +++ " " +++ w2) KEYWORDS = true ->
  spaces w1 = 0 -> spaces w2 = 0 ->
  forall toks l1 x y l2,
    List.length toks <= n ->
    _merge_compounds toks = l1 ++ x :: y :: l2 ->
    ~ (upper x = w1 /\ upper y = w2).
Proof.
  intros Hk Hs1 Hs2.
  induction n as [|n IH]; intros toks l1 x y l2 Hlen Hm [Hx Hy].
  - destruct toks; [|simpl in Hlen; lia]. destruct l1; discriminate.
  - destruct toks as [|a [|b rest]].
    + destruct l1; discriminate.
    + rewrite merge_one in Hm. destruct l1 as [|? [|? ?]]; discriminate.
    + rewrite merge_two in Hm. simpl in Hlen.
      destruct (mem (pair a b) KEYWORDS) eqn:E.
      * destruct l1 as [|e l1]; cbn [app] in Hm;
          apply cons_eq_inv in Hm; destruct Hm as [He Hm].
        -- subst x. rewrite upper_pair in Hx.
           assert (S : spaces (pair a b) = 0) by (rewrite Hx; exact Hs1).
           unfold pair in S. rewrite !spaces_app in S. simpl in S. lia.
        -- apply (IH rest l1 x y l2); [lia | assumption | now split].
      * destruct l1 as [|e l1]; cbn [app] in Hm;
          apply cons_eq_inv in Hm; destruct Hm as [He Hm].
        -- subst x. rewrite upper_single in Hx.
           destruct (merge_head b rest) as [y' [m [Hb Hy']]].
           rewrite Hb in Hm. apply cons_eq_inv in Hm.
           destruct Hm as [Hyy _]. subst y'.
           destruct Hy' as [Hu|Hsp].
           ++ unfold pair in E. rewrite Hx, <- Hu, Hy in E. congruence.
           ++ rewrite <- (spaces_upper y), Hy in Hsp. lia.
        -- apply (IH (b :: rest) l1 x y l2);
             [simpl; lia | assumption | now split].
Qed.

Lemma group_not_continuation : not_continuation "GROUP".
Proof. apply not_continuation_by_table. vm_compute. reflexivity. Qed.

Lemma primary_not_continuation : not_continuation "PRIMARY".
Proof. apply not_continuation_by_table. vm_compute. reflexivity. Qed.

(** C4. The merger tries the window of three tokens, then the window of
    two, then the single token, and a match of a window emits one
    upper-case token for it.  Wherever two adjacent tokens read GROUP, BY
    or PRIMARY, KEY in any letter case, the merged sequence has the one
    token of the phrase at that place, and it never has the two words as
    adjacent tokens. *)
Theorem merge_longest_match (pre : list string) (a b : string)
        (post : list string) :
  (upper a = "GROUP" /\ upper b = "BY")
  \/ (upper a = "PRIMARY" /\ upper b = "KEY") ->
  _merge_compounds (pre ++ a :: b :: post)
  = _merge_compounds pre ++ (upper a +++ " " +++ upper b)
                            :: _merge_compounds post
  /\ (forall toks l1 x y l2,
         _merge_compounds toks = l1 ++ x :: y :: l2 ->
         ~ (upper x = upper a /\ upper y = upper b))
  /\ (forall t0 t1 t2 rest,
         _merge_compounds (t0 :: t1 :: t2 :: rest) =
         if mem (upper t0 +++ " " +++ upper t1 +++ " " +++ upper t2) KEYWORDS
         then (upper t0 +++ " " +++ upper t1 +++ " " +++ upper t2)
                :: _merge_compounds rest
         else if mem (upper t0 +++ " " +++ upper t1) KEYWORDS
         then (upper t0 +++ " " +++ upper t1) :: _merge_compounds (t2 :: rest)
         else (if mem (upper t0) KEYWORDS then upper t0 else t0)
                :: _merge_compounds (t1 :: t2 :: rest)).
Proof.
  intros H. split; [|split].
  - assert (Hc : not_continuation (upper a)).
    { destruct H as [[-> _]|[-> _]];
        [apply group_not_continuation | apply primary_not_continuation]. }
    rewrite merge_app by assumption. rewrite merge_two. unfold pair.
    destruct H as [[-> ->]|[-> ->]]; reflexivity.
  - intros toks l1 x y l2 Hm.
    destruct H as [[-> ->]|[-> ->]];
      apply (merge_no_split_len _ _ (List.length toks)) with (2 := eq_refl)
        (3 := eq_refl) (5 := Hm); auto.
  - intros t0 t1 t2 rest. reflexivity.
Qed.

Lemma merge_longest_match_witness :
  (upper "group" = "GROUP" /\ upper "By" = "BY")
  /\ _merge_compounds ["select"; "x"; "group"; "By"; "y"]
     = ["SELECT"; "x"; "GROUP BY"; "y"].
Proof.
  assert (H : upper "group" = "GROUP" /\ upper "By" = "BY")
    by (split; reflexivity).
  split; [exact H|].
  exact (proj1 (merge_longest_match ["select"; "x"] "group" "By" ["y"]
                                    (or_introl H))).
Defined.

End Merger.

(** ** Commas that reach an empty pending line *)

Module CommaDrop.
Import PyStr SQLFormatter StrFacts.

Lemma step_comma_empty (st : fstate) :
  current st = [] -> step st "," = Some st.
Proof.
  destruct st as [ls cur lvl il gp]. simpl. intros ->.
  unfold step. cbn [current nonempty bind inside_list].
  change (mem "," CLAUSE_KEYWORDS) with false. cbn [andb].
  change ("," =? ",")%string with true. cbv iota.
  destruct il; reflexivity.
Qed.

Lemma run_app (pre post : list string) :
  forall st, run st (pre ++ post) = st' <- run st pre ;; run st' post.
Proof.
  induction pre as [|t pre IH]; intros st; simpl; [reflexivity|].
  destruct (step st t) as [st1|]; simpl; [apply IH | reflexivity].
Qed.

(** C10. A comma processed while the pending line is empty leaves no
    trace: the formatted text is the one of the token sequence without
    that comma.  [, a;] is formatted as [a;], which has no comma. *)
Theorem comma_on_empty_line_dropped (pre post : list string) (st : fstate) :
  run init_state pre = Some st ->
  current st = [] ->
  _format_tokens (pre ++ "," :: post) = _format_tokens (pre ++ post)
  /\ (exists errors, format_and_check ", a;" = Some ("a;", errors))
  /\ index 0 "," "a;" = None.
Proof.
  intros Hrun Hcur. split; [|split].
  - unfold _format_tokens. rewrite !run_app, Hrun. cbn [bind run].
    rewrite (step_comma_empty st Hcur). reflexivity.
  - eexists. vm_compute. reflexivity.
  - reflexivity.
Qed.

Lemma comma_on_empty_line_dropped_witness :
  _format_tokens ["SELECT"; "("; ","; "a"]
  = _format_tokens ["SELECT"; "("; "a"].
Proof.
  exact (proj1 (comma_on_empty_line_dropped
                  ["SELECT"; "("] ["a"]
                  (mkState ["SELECT ("] [] 1 true false)
                  eq_refl eq_refl)).
Defined.

End CommaDrop.

(** ** The highlighter covers its input *)

Module Lossless.
Import PyStr StrFacts Spec Highlight.

Lemma length_app (a b : string) :
  String.length (a +++ b) = String.length a + String.length b.
Proof. induction a as [|c a IH]; simpl; [reflexivity | now rewrite IH]. Qed.

Lemma substring_take_drop (s : string) :
  forall a n, substring a n s = take n (drop a s).
Proof.
  induction s as [|c s IH]; intros a n.
  - destruct a, n; reflexivity.
  - destruct a as [|a].
    + destruct n as [|n]; simpl; [reflexivity|].
      rewrite (IH 0 n). destruct s; reflexivity.
    + simpl. apply IH.
Qed.

Lemma drop_nil (n : nat) : drop n EmptyString = EmptyString.
Proof. destruct n; reflexivity. Qed.

Lemma drop_add (s : string) :
  forall a n, drop (a + n) s = drop n (drop a s).
Proof.
  induction s as [|c s IH]; intros a n.
  - rewrite !drop_nil. reflexivity.
  - destruct a as [|a]; simpl; [reflexivity | apply IH].
Qed.

Lemma take_add (s : string) :
  forall n m, take (n + m) s = take n s +++ take m (drop n s).
Proof.
  induction s as [|c s IH]; intros n m.
  - rewrite drop_nil. destruct n, m; reflexivity.
  - destruct n as [|n]; simpl; [reflexivity | now rewrite IH].
Qed.

Lemma take_all (s : string) : take (String.length s) s = s.
Proof. induction s as [|c s IH]; simpl; [reflexivity | now rewrite IH]. Qed.

Lemma length_drop (s : string) :
  forall n, String.length (drop n s) = String.length s - n.
Proof.
  induction s as [|c s IH]; intros n.
  - rewrite drop_nil. reflexivity.
  - destruct n as [|n]; simpl; [reflexivity | apply IH].
Qed.

Lemma drop_tail (s : string) (c : ascii) (r : string) :
  forall n, drop n s = String c r -> drop (S n) s = r.
Proof.
  intros n H. replace (S n) with (n + 1) by lia.
  rewrite drop_add, H. reflexivity.
Qed.

(** [s[a:b] + s[b:c] = s[a:c]] *)
Lemma slice_app (s : string) (a b c : nat) :
  a <= b -> b <= c -> slice s a b +++ slice s b c = slice s a c.
Proof.
  intros Hab Hbc. unfold slice. rewrite !substring_take_drop.
  replace (c - a) with ((b - a) + (c - b)) by lia.
  rewrite take_add. rewrite <- drop_add.
  replace (a + (b - a)) with b by lia. reflexivity.
Qed.

Lemma slice_same (s : string) (a : nat) : slice s a a = EmptyString.
Proof.
  unfold slice. rewrite substring_take_drop, Nat.sub_diag.
  destruct (drop a s); reflexivity.
Qed.

Lemma slice_past_end (s : string) (a b : nat) :
  String.length s <= a -> slice s a b = EmptyString.
Proof.
  intros H. unfold slice. rewrite substring_take_drop.
  assert (E : drop a s = EmptyString).
  { pose proof (length_drop s a) as L.
    destruct (drop a s); [reflexivity | simpl in L; lia]. }
  rewrite E. destruct (b - a); reflexivity.
Qed.

(** *** Every alternative consumes at least one character of the input *)

Lemma span_le (p : ascii -> bool) (s : string) : span p s <= String.length s.
Proof.
  induction s as [|c s IH]; simpl; [lia|]. destruct (p c); lia.
Qed.

Lemma to_star_slash_within (s : string) : within s (to_star_slash s).
Proof.
  unfold within. induction s as [|c s IH]; intros n H; [discriminate|].
  cbn [to_star_slash] in H. destruct s as [|c' s]; [discriminate|].
  destruct ((c =? "*")%char && (c' =? "/")%char).
  - injection H as <-. simpl. lia.
  - destruct (to_star_slash (String c' s)) as [k|]; [|discriminate].
    injection H as <-. specialize (IH k eq_refl). simpl in *. lia.
Qed.

Lemma quoted_body_within (q : ascii) (n : nat) :
  forall s, String.length s <= n -> within s (quoted_body q s).
Proof.
  unfold within. induction n as [|n IH]; intros s Hlen k H.
  - destruct s; [discriminate | simpl in Hlen; lia].
  - destruct s as [|c s]; [discriminate|]. cbn [quoted_body] in H.
    simpl in Hlen. destruct (c =? q)%char.
    + destruct s as [|c' s]; [injection H as <-; simpl; lia|].
      destruct (c' =? q)%char; [|injection H as <-; simpl; lia].
      destruct (quoted_body q s) as [m|] eqn:E;
        injection H as <-; [|simpl; lia].
      simpl in Hlen. assert (Hs : String.length s <= n) by lia.
      specialize (IH s Hs m E). simpl. lia.
    + destruct (quoted_body q s) as [m|] eqn:E; [|discriminate].
      injection H as <-. assert (Hs : String.length s <= n) by lia.
      specialize (IH s Hs m E). simpl. lia.
Qed.

Lemma to_last_within (q : ascii) (s : string) : within s (to_last q s).
Proof.
  unfold within. induction s as [|c s IH]; intros n H; [discriminate|].
  cbn [to_last] in H. destruct (to_last q s) as [k|].
  - injection H as <-. specialize (IH k eq_refl). simpl. lia.
  - destruct (c =? q)%char; [|discriminate]. injection H as <-. simpl. lia.
Qed.

Lemma match_space_within (s : string) : within s (match_space s).
Proof.
  intros n H. unfold match_space in H. pose proof (span_le is_blank s).
  destruct (span is_blank s); [discriminate|]. injection H as <-. lia.
Qed.

Lemma match_line_comment_within (s : string) :
  within s (match_line_comment s).
Proof.
  intros n H. unfold match_line_comment in H.
  destruct s as [|c [|c' r]]; try discriminate.
  - destruct c as [[] [] [] [] [] [] [] []]; discriminate.
  - pose proof (span_le not_newline r).
    destruct c as [[] [] [] [] [] [] [] []]; try discriminate;
      destruct c' as [[] [] [] [] [] [] [] []]; try discriminate.
    injection H as <-. simpl. lia.
Qed.

Lemma match_block_comment_within (s : string) :
  within s (match_block_comment s).
Proof.
  intros n H. unfold match_block_comment in H.
  destruct s as [|c [|c' r]]; try discriminate.
  - destruct c as [[] [] [] [] [] [] [] []]; discriminate.
  - pose proof (to_star_slash_within r) as W.
    destruct c as [[] [] [] [] [] [] [] []]; try discriminate;
      destruct c' as [[] [] [] [] [] [] [] []]; try discriminate.
    destruct (to_star_slash r) as [k|]; [|discriminate].
    injection H as <-. specialize (W k eq_refl). simpl. lia.
Qed.

Lemma match_quoted_within (q : ascii) (s : string) :
  within s (match_quoted q s).
Proof.
  intros n H. unfold match_quoted in H. destruct s as [|c r]; [discriminate|].
  destruct (c =? q)%char; [|discriminate].
  pose proof (quoted_body_within q (String.length r) r (le_n _)) as W.
  destruct (quoted_body q r) as [k|]; [|discriminate].
  injection H as <-. specialize (W k eq_refl). simpl. lia.
Qed.

Lemma match_dq_string_within (s : string) : within s (match_dq_string s).
Proof.
  intros n H. unfold match_dq_string in H. destruct s as [|c r]; [discriminate|].
  destruct (c =? dquote)%char; [|discriminate].
  pose proof (to_last_within dquote r) as W.
  destruct (to_last dquote r) as [k|]; [|discriminate].
  injection H as <-. specialize (W k eq_refl). simpl. lia.
Qed.

Lemma match_param_within (s : string) : within s (match_param s).
Proof.
  intros n H. unfold match_param in H. destruct s as [|c r]; [discriminate|].
  destruct (c =? "?")%char; [injection H as <-; simpl; lia|].
  destruct ((c =? ":")%char || (c =? "@")%char || (c =? "$")%char);
    [|discriminate].
  destruct r as [|c' r']; [discriminate|].
  destruct (is_ident_start c'); [|discriminate].
  injection H as <-. pose proof (span_le is_word r'). simpl. lia.
Qed.

Lemma match_fraction_within (s : string) : within s (match_fraction s).
Proof.
  intros n H. unfold match_fraction in H. destruct s as [|c r]; [discriminate|].
  pose proof (span_le is_digit r).
  destruct c as [[] [] [] [] [] [] [] []]; try discriminate.
  destruct (span is_digit r); [discriminate|].
  injection H as <-. simpl. lia.
Qed.

Lemma match_number_within (s : string) : within s (match_number s).
Proof.
  intros n H. unfold match_number in H.
  pose proof (span_le is_digit s) as L.
  destruct (span is_digit s) as [|d] eqn:E.
  - exact (match_fraction_within s n H).
  - pose proof (match_fraction_within (drop (S d) s)) as W.
    rewrite <- E in *.
    destruct (match_fraction (drop (span is_digit s) s)) as [k|].
    + injection H as <-. specialize (W k eq_refl).
      rewrite length_drop in W. lia.
    + injection H as <-. lia.
Qed.

Lemma match_op_within (s : string) : within s (match_op s).
Proof.
  intros n H. unfold match_op in H. destruct s as [|c [|c' r]];
    [discriminate| |].
  - destruct (is_op_char c); [|discriminate]. injection H as <-. simpl. lia.
  - destruct (is_op2 c c'); [injection H as <-; simpl; lia|].
    destruct (is_op_char c); [|discriminate]. injection H as <-. simpl. lia.
Qed.

Lemma match_punct_within (s : string) : within s (match_punct s).
Proof.
  intros n H. unfold match_punct in H. destruct s as [|c r]; [discriminate|].
  destruct (is_punct c); [|discriminate]. injection H as <-. simpl. lia.
Qed.

Lemma match_ident_within (s : string) : within s (match_ident s).
Proof.
  intros n H. unfold match_ident in H. destruct s as [|c r]; [discriminate|].
  destruct (is_ident_start c); [|discriminate].
  injection H as <-. pose proof (span_le is_ident_char r). simpl. lia.
Qed.

Lemma first_match_within (alts : list (group * (string -> option nat)))
      (s : string) :
  Forall (fun gf => within s (snd gf s)) alts ->
  forall g n, first_match alts s = Some (g, n) -> 1 <= n <= String.length s.
Proof.
  induction 1 as [|[g0 f] alts Hf _ IH]; intros g n H; [discriminate|].
  cbn [first_match] in H. simpl in Hf.
  destruct (f s) as [k|] eqn:E.
  - injection H as _ <-. now apply Hf.
  - now apply (IH g).
Qed.

Lemma master_within (s : string) (g : group) (n : nat) :
  master s = Some (g, n) -> 1 <= n <= String.length s.
Proof.
  apply first_match_within. unfold alternatives.
  repeat (apply Forall_cons; [cbn [snd]|]); try apply Forall_nil.
  - apply match_space_within.
  - apply match_line_comment_within.
  - apply match_block_comment_within.
  - apply match_quoted_within.
  - apply match_dq_string_within.
  - apply match_quoted_within.
  - apply match_param_within.
  - apply match_number_within.
  - apply match_op_within.
  - apply match_punct_within.
  - apply match_ident_within.
Qed.

(** *** The loop of the highlighter *)

Lemma concat_empty_cons (x : string) (xs : list string) :
  String.concat EmptyString (x :: xs) = x +++ String.concat EmptyString xs.
Proof.
  destruct xs as [|y xs]; simpl; [now rewrite append_nil_r | reflexivity].
Qed.

Lemma concat_empty_app (xs ys : list string) :
  String.concat EmptyString (xs ++ ys)
  = String.concat EmptyString xs +++ String.concat EmptyString ys.
Proof.
  induction xs as [|x xs IH]; [reflexivity|].
  cbn [app]. rewrite !concat_empty_cons, IH, append_assoc. reflexivity.
Qed.

Lemma tokenize_finish (s : string) :
  highlight_sql_tokenize s
  = finish s (fold_left (lex_step s) (finditer s) (0, [])).
Proof. reflexivity. Qed.

Lemma finish_covers (s : string) (p : nat) (out : list token) :
  exists toks spans,
    finish s (p, out) = out ++ toks
    /\ Forall2 covers toks spans
    /\ String.concat EmptyString spans = slice s p (String.length s).
Proof.
  unfold finish. destruct (p <? String.length s)%nat eqn:E.
  - exists [("ident", slice s p (String.length s))],
           [slice s p (String.length s)].
    repeat split. constructor; [left; reflexivity | constructor].
  - apply Nat.ltb_ge in E. exists [], [].
    rewrite app_nil_r, slice_past_end by assumption.
    repeat split. constructor.
Qed.

(** One iteration emits the gap before the match, if any, as a fallback
    identifier and then the token of the match. *)
Lemma lex_step_covers (s : string) (p : nat) (out : list token) (m : Match) :
  exists tok,
    covers tok (slice s (m_start m) (m_end m))
    /\ lex_step s (p, out) m
       = (m_end m,
          out ++ (if (m_start m =? p)%nat then []
                  else [("ident", slice s p (m_start m))]) ++ [tok]).
Proof.
  unfold lex_step.
  destruct (m_start m =? p)%nat; cbn [negb];
    destruct (lastgroup m);
    try (eexists; split; cycle 1;
         [rewrite <- ?app_assoc; reflexivity | left; reflexivity]);
    destruct (mem (upper (slice s (m_start m) (m_end m))) KEYWORDS);
    eexists; (split; cycle 1;
              [rewrite <- ?app_assoc; reflexivity
              | (left; reflexivity) || (right; split; reflexivity)]).
Qed.

(** The tokens emitted from a state [(p, out)], when the search stands at
    [pos], cover the input from [p] to its end. *)
Lemma scan_covers (s : string) :
  forall fuel pos p out,
    p <= pos ->
    String.length s - pos <= fuel ->
    exists toks spans,
      finish s (fold_left (lex_step s)
                          (finditer_from fuel pos (drop pos s)) (p, out))
      = out ++ toks
      /\ Forall2 covers toks spans
      /\ String.concat EmptyString spans = slice s p (String.length s).
Proof.
  induction fuel as [|fuel IH]; intros pos p out Hp Hfuel.
  - cbn [finditer_from fold_left]. apply finish_covers.
  - cbn [finditer_from].
    destruct (drop pos s) as [|c rest'] eqn:Ed.
    { cbn [fold_left]. apply finish_covers. }
    assert (Hlen : pos < String.length s).
    { pose proof (length_drop s pos) as L. rewrite Ed in L. simpl in L. lia. }
    destruct (master (String c rest')) as [[g n]|] eqn:Em.
    + pose proof (master_within _ _ _ Em) as Hn.
      rewrite <- Ed, length_drop in Hn.
      cbn [fold_left].
      destruct (lex_step_covers s p out (mkMatch pos (pos + n) g))
        as [tok [Hc ->]].
      cbn [m_start m_end] in *.
      rewrite <- Ed, <- drop_add.
      destruct (IH (pos + n) (pos + n)
                   (out ++ (if (pos =? p)%nat then []
                            else [("ident", slice s p pos)]) ++ [tok]))
        as [toks [spans [Hf [Hcov Hcat]]]]; [lia | lia |].
      rewrite Hf.
      destruct (pos =? p)%nat eqn:Epp.
      * apply Nat.eqb_eq in Epp. subst p.
        exists (tok :: toks), (slice s pos (pos + n) :: spans).
        split; [cbn [app]; rewrite <- app_assoc; reflexivity|].
        split; [constructor; assumption|].
        rewrite concat_empty_cons, Hcat. apply slice_app; lia.
      * exists (("ident", slice s p pos) :: tok :: toks),
               (slice s p pos :: slice s pos (pos + n) :: spans).
        split; [rewrite <- app_assoc; reflexivity|].
        split; [constructor; [left; reflexivity | constructor; assumption]|].
        rewrite !concat_empty_cons, Hcat.
        rewrite (slice_app s pos (pos + n)) by lia.
        apply slice_app; lia.
    + rewrite <- (drop_tail s c rest' pos Ed).
      apply IH; lia.
Qed.

Lemma upper_length (s : string) : String.length (upper s) = String.length s.
Proof. induction s as [|c s IH]; simpl; [reflexivity | now rewrite IH]. Qed.

Lemma covers_upper (toks : list token) (spans : list string) :
  Forall2 covers toks spans ->
  upper (raw_text toks) = upper (String.concat EmptyString spans).
Proof.
  unfold raw_text. induction 1 as [|tok v toks spans Hc _ IH]; [reflexivity|].
  cbn [map]. rewrite !concat_empty_cons, !Merger.upper_app, IH.
  destruct Hc as [->|[_ ->]]; [reflexivity|].
  now rewrite Merger.upper_idem.
Qed.

Lemma covers_length (toks : list token) (spans : list string) :
  Forall2 covers toks spans ->
  String.length (raw_text toks)
  = String.length (String.concat EmptyString spans).
Proof.
  unfold raw_text. induction 1 as [|tok v toks spans Hc _ IH]; [reflexivity|].
  cbn [map]. rewrite !concat_empty_cons, !length_app, IH.
  destruct Hc as [->|[_ ->]]; [reflexivity|].
  now rewrite upper_length.
Qed.

(** C1, as the code has it.  The tokens of the highlighter cover the input
    from left to right without a gap: every token carries the span it
    covers verbatim, spans matched by no pattern included, except that a
    keyword token carries its span in upper case.  So the concatenated
    texts have the length of the input and equal it up to letter case. *)
Theorem highlight_covers_input (s : string) :
  (exists spans,
      String.concat EmptyString spans = s
      /\ Forall2 covers (highlight_sql_tokenize s) spans)
  /\ upper (raw_text (highlight_sql_tokenize s)) = upper s
  /\ String.length (raw_text (highlight_sql_tokenize s)) = String.length s.
Proof.
  destruct (scan_covers s (String.length s) 0 0 [])
    as [toks [spans [Hf [Hcov Hcat]]]]; [lia | lia |].
  cbn [drop app] in Hf.
  assert (Hs : slice s 0 (String.length s) = s).
  { unfold slice. rewrite substring_take_drop, Nat.sub_0_r. apply take_all. }
  rewrite Hs in Hcat.
  rewrite tokenize_finish. unfold finditer. rewrite Hf.
  split; [exists spans; now split|].
  split.
  - rewrite (covers_upper _ _ Hcov), Hcat. reflexivity.
  - rewrite (covers_length _ _ Hcov), Hcat. reflexivity.
Qed.

(** C1 fails as stated: the text of a keyword token is the upper-case form
    of what the input has. *)
Lemma highlight_alters_keyword_case :
  highlight_sql_tokenize "select" = [("keyword", "SELECT")]
  /\ raw_text (highlight_sql_tokenize "select") = "SELECT"
  /\ raw_text (highlight_sql_tokenize "select") <> "select".
Proof.
  split; [vm_compute; reflexivity|].
  split; [vm_compute; reflexivity|].
  vm_compute. discriminate.
Qed.

End Lossless.

(** ** The two keyword vocabularies *)

Module Vocabulary.
Import PyStr StrFacts Spec SpecMore Highlight.



(** *** The highlighter on a word *)







(** *** Words written in any letter case *)







(** The word has to stand by itself.  Inside a string literal the
    formatter, which splits at white space, upper-cases a keyword that
    the highlighter leaves inside the string token. *)
Lemma keyword_inside_string :
  SQLFormatter.format_and_check "select 'a as b';"
  = Some ("SELECT 'a AS b';", [])
  /\ highlight_sql_tokenize "select 'a as b';"
     = [("keyword", "SELECT"); ("ws", " "); ("string", "'a as b'");
        ("punct", ";")].
Proof. split; vm_compute; reflexivity. Qed.

End Vocabulary.

(** ** Tokenizing formatted text *)

Module Retokenize.
Import PyStr SQLFormatter StrFacts Spec.

Lemma space_not_struct (c : ascii) : isspace c = true -> is_struct c = false.
Proof.
  destruct c as [[] [] [] [] [] [] [] []]; intros H;
    try reflexivity; discriminate H.
Qed.

Lemma struct_not_space (c : ascii) : is_struct c = true -> isspace c = false.
Proof.
  intros H. destruct (isspace c) eqn:E; [|reflexivity].
  apply space_not_struct in E. congruence.
Qed.

Lemma pad_app (a b : string) :
  pad_punct (a +++ b) = pad_punct a +++ pad_punct b.
Proof.
  induction a as [|c a IH]; [reflexivity|].
  cbn [append pad_punct]. rewrite IH. destruct (is_struct c); reflexivity.
Qed.

Lemma split_go_space (a : string) (c : ascii) (b : string) :
  isspace c = true ->
  forall w, split_go w (a +++ String c b)
            = split_go w a ++ split_go EmptyString b.
Proof.
  intros Hc. induction a as [|x a IH]; intros w.
  - cbn [append split_go]. rewrite Hc. destruct w; reflexivity.
  - cbn [append split_go]. destruct (isspace x).
    + destruct (is_empty w); rewrite IH; reflexivity.
    + apply IH.
Qed.

Lemma tokenize_nil : _tokenize EmptyString = [].
Proof. reflexivity. Qed.

(** White space separates the words on its two sides. *)
Lemma tokenize_space (a : string) (c : ascii) (b : string) :
  isspace c = true ->
  _tokenize (a +++ String c b) = _tokenize a ++ _tokenize b.
Proof.
  intros Hc. unfold _tokenize, split. rewrite pad_app.
  cbn [pad_punct]. rewrite (space_not_struct c Hc).
  now apply split_go_space.
Qed.

(** A structural character is a word of its own. *)
Lemma tokenize_struct (a : string) (c : ascii) (b : string) :
  is_struct c = true ->
  _tokenize (a +++ String c b)
  = _tokenize a ++ String c EmptyString :: _tokenize b.
Proof.
  intros Hc. unfold _tokenize, split. rewrite pad_app.
  cbn [pad_punct]. rewrite Hc.
  rewrite split_go_space by reflexivity.
  cbn [split_go append is_empty]. rewrite (struct_not_space c Hc).
  reflexivity.
Qed.

Lemma tokenize_all_space (s : string) :
  all_space s = true -> _tokenize s = [].
Proof.
  induction s as [|c s IH]; [reflexivity|]. cbn [all_space].
  intros H. apply andb_prop in H. destruct H as [Hc Hs].
  change (String c s) with (EmptyString +++ String c s).
  rewrite tokenize_space by assumption. now apply IH.
Qed.

Lemma tokenize_app_space (a sp : string) :
  all_space sp = true -> _tokenize (a +++ sp) = _tokenize a.
Proof.
  intros H. destruct sp as [|c sp]; [now rewrite append_nil_r|].
  cbn [all_space] in H. apply andb_prop in H. destruct H as [Hc Hs].
  rewrite tokenize_space by assumption.
  rewrite (tokenize_all_space sp Hs). apply app_nil_r.
Qed.

Lemma tokenize_space_app (sp a : string) :
  all_space sp = true -> _tokenize (sp +++ a) = _tokenize a.
Proof.
  induction sp as [|c sp IH]; [reflexivity|]. cbn [all_space append].
  intros H. apply andb_prop in H. destruct H as [Hc Hs].
  change (String c (sp +++ a)) with (EmptyString +++ String c (sp +++ a)).
  rewrite tokenize_space by assumption. now apply IH.
Qed.

Lemma rstrip_decomp (s : string) :
  exists sp, all_space sp = true /\ s = rstrip s +++ sp.
Proof.
  induction s as [|c s [sp [Hsp E]]]; [exists EmptyString; now split|].
  cbn [rstrip]. destruct (rstrip s) as [|c' r].
  - cbn [append] in E. subst sp. destruct (isspace c) eqn:Ec.
    + exists (String c s). split; [cbn [all_space]; now rewrite Ec|reflexivity].
    + exists s. now split.
  - exists sp. split; [assumption|].
    change (String c (String c' r) +++ sp) with (String c (String c' r +++ sp)).
    now rewrite <- E.
Qed.

Lemma lstrip_decomp (s : string) :
  exists sp, all_space sp = true /\ s = sp +++ lstrip s.
Proof.
  induction s as [|c s [sp [Hsp E]]]; [exists EmptyString; now split|].
  cbn [lstrip]. destruct (isspace c) eqn:Ec.
  - exists (String c sp). split; [cbn [all_space]; now rewrite Ec|].
    cbn [append]. now rewrite <- E.
  - exists EmptyString. now split.
Qed.

Lemma tokenize_rstrip (s : string) : _tokenize (rstrip s) = _tokenize s.
Proof.
  destruct (rstrip_decomp s) as [sp [Hsp E]].
  rewrite E at 2. now rewrite tokenize_app_space.
Qed.

Lemma tokenize_lstrip (s : string) : _tokenize (lstrip s) = _tokenize s.
Proof.
  destruct (lstrip_decomp s) as [sp [Hsp E]].
  rewrite E at 2. now rewrite tokenize_space_app.
Qed.

Lemma tokenize_strip (s : string) : _tokenize (strip s) = _tokenize s.
Proof. unfold strip. now rewrite tokenize_rstrip, tokenize_lstrip. Qed.

Lemma flat_app (l1 l2 : list string) : flat (l1 ++ l2) = flat l1 ++ flat l2.
Proof. unfold flat. now rewrite map_app, concat_app. Qed.

Lemma flat_cons (x : string) (l : list string) :
  flat (x :: l) = _tokenize x ++ flat l.
Proof. reflexivity. Qed.

(** Joining with a white space character keeps the words. *)
Lemma tokenize_join (c : ascii) (l : list string) :
  isspace c = true ->
  _tokenize (join (String c EmptyString) l) = flat l.
Proof.
  intros Hc. unfold join. induction l as [|x l IH]; [reflexivity|].
  destruct l as [|y l].
  - cbn [String.concat]. unfold flat. cbn [map List.concat].
    now rewrite app_nil_r.
  - change (String.concat (String c EmptyString) (x :: y :: l))
      with (x +++ String c EmptyString
              +++ String.concat (String c EmptyString) (y :: l)).
    cbn [append]. rewrite tokenize_space by assumption.
    rewrite IH. reflexivity.
Qed.

Lemma tokenize_indent (n : nat) (s : string) :
  _tokenize (repeat_str indent n +++ s) = _tokenize s.
Proof.
  apply tokenize_space_app. induction n as [|n IH]; [reflexivity|].
  cbn [repeat_str]. unfold indent at 1. cbn [append all_space]. exact IH.
Qed.

Lemma tokenize_suffix (s : string) (c : ascii) :
  is_struct c = true ->
  _tokenize (s +++ String c EmptyString) = _tokenize s ++ [String c EmptyString].
Proof. intros Hc. now rewrite tokenize_struct. Qed.

End Retokenize.

(** ** Formatting a formatted text *)

Module Idempotence.
Import PyStr SQLFormatter StrFacts Spec Retokenize.

(** *** The iteration on each kind of token *)

Lemma step_comma (st : fstate) :
  step st "," =
  (st1 <- (if nonempty (current st) then attach_current "," st
           else Some st) ;;
   Some (if inside_list st1 then flush_line false st1 else st1)).
Proof. reflexivity. Qed.

Lemma step_open (st : fstate) :
  step st "(" =
  let st1 := flush_line false (append_current "(" st) in
  Some (mkState (lines st1) (current st1) (indent_level st1 + 1)
                (inside_list st1) (in_grant_priv_list st1)).
Proof. reflexivity. Qed.

Lemma step_close (st : fstate) :
  step st ")" =
  let st1 := flush_line false st in
  let st2 := mkState (lines st1) (current st1)
                     (Z.max 0 (indent_level st1 - 1))
                     (inside_list st1) (in_grant_priv_list st1) in
  let st3 := flush_line false (append_current ")" st2) in
  Some (mkState (lines st3) (current st3) (indent_level st3) false
                (in_grant_priv_list st3)).
Proof. reflexivity. Qed.

Lemma step_semicolon (st : fstate) :
  step st ";" =
  (st1 <- (if nonempty (current st) then
             st1 <- attach_current ";" st ;;
             Some (flush_line false st1)
           else if nonempty (lines st) then
             last <- get_last (lines st) ;;
             lines' <- set_last (lines st) (rstrip last +++ ";") ;;
             Some (mkState lines' (current st) (indent_level st)
                           (inside_list st) (in_grant_priv_list st))
           else Some st) ;;
   Some (mkState (lines st1 ++ [EmptyString]) (current st1) 0 false false)).
Proof. reflexivity. Qed.

Lemma structural_cases (tok : string) :
  is_structural tok = true ->
  tok = "," \/ tok = "(" \/ tok = ")" \/ tok = ";".
Proof.
  unfold is_structural. intros H.
  repeat (apply orb_prop in H; destruct H as [H|H]);
    apply String.eqb_eq in H; auto.
Qed.

Lemma structural_false (tok : string) :
  is_structural tok = false ->
  (tok =? ",")%string = false /\ (tok =? "(")%string = false
  /\ (tok =? ")")%string = false /\ (tok =? ";")%string = false.
Proof.
  unfold is_structural. intros H.
  repeat (apply orb_false_elim in H; destruct H as [H ?]). auto.
Qed.

(** A token that is not structural is appended to the pending line, after
    a flush when it opens a clause. *)
Lemma step_word (st : fstate) (tok : string) :
  is_structural tok = false ->
  exists st1 il gp,
    (st1 = st \/ st1 = flush_line false st)
    /\ step st tok
       = Some (mkState (lines st1) (current st1 ++ [tok])
                       (indent_level st1) il gp).
Proof.
  intros H. destruct (structural_false tok H) as [Hc [Ho [Hcl Hs]]].
  unfold step. rewrite Hc, Ho, Hcl, Hs.
  destruct (mem tok CLAUSE_KEYWORDS
            && negb (in_grant_priv_list st && mem tok PRIVILEGE_WORDS)).
  - eexists (flush_line false st), _, _. split; [now right | reflexivity].
  - destruct (in_grant_priv_list st && mem tok LIST_EXIT);
      eexists st, _, _; (split; [now left | reflexivity]).
Qed.

(** *** The words of the state after one iteration *)

Lemma words_flush (st : fstate) : words (flush_line false st) = words st.
Proof.
  unfold flush_line, words. rewrite orb_false_r.
  destruct (nonempty (current st)) eqn:E; [|reflexivity].
  cbn [lines current].
  pose proof (tokenize_join " " (current st) eq_refl) as J.
  rewrite <- tokenize_strip in J.
  destruct (strip (join " " (current st))) as [|c line] eqn:El.
  - cbn [is_empty]. rewrite <- J. reflexivity.
  - cbn [is_empty]. rewrite flat_app, flat_cons, tokenize_indent, J.
    cbn [flat map List.concat]. now rewrite !app_nil_r.
Qed.

Lemma words_append (tok : string) (st : fstate) :
  words (append_current tok st) = words st ++ _tokenize tok.
Proof.
  unfold append_current, words. cbn [lines current].
  rewrite flat_app, flat_cons. cbn [flat map List.concat].
  now rewrite app_nil_r, app_assoc.
Qed.

Lemma words_attach (c : ascii) (st st' : fstate) :
  is_struct c = true ->
  attach_current (String c EmptyString) st = Some st' ->
  words st' = words st ++ [String c EmptyString].
Proof.
  intros Hc. unfold attach_current.
  destruct (current st) as [|x0 l0] eqn:Ecur; [discriminate|].
  destruct (nonempty_snoc (x0 :: l0) eq_refl) as [l [x E]].
  rewrite E, get_last_snoc. cbn [bind]. rewrite set_last_snoc. cbn [bind].
  intros H. injection H as <-. unfold words. cbn [lines current].
  rewrite Ecur, E, !flat_app, !flat_cons, tokenize_suffix by assumption.
  cbn [flat map List.concat]. rewrite !app_nil_r, <- !app_assoc. reflexivity.
Qed.

Lemma words_state (l c : list string) (i : Z) (il gp : bool) :
  words (mkState l c i il gp) = flat l ++ flat c.
Proof. reflexivity. Qed.

Lemma words_fields (st : fstate) :
  flat (lines st) ++ flat (current st) = words st.
Proof. reflexivity. Qed.

Lemma step_words (st st' : fstate) (tok : string) :
  step st tok = Some st' ->
  words st' = words st ++ (if dropped st tok then [] else _tokenize tok).
Proof.
  destruct (is_structural tok) eqn:Es.
  - destruct (structural_cases tok Es) as [-> | [-> | [-> | ->]]].
    + rewrite step_comma. unfold dropped.
      change ("," =? ",")%string with true.
      change ("," =? ";")%string with false. cbn [andb orb].
      destruct (nonempty (current st)) eqn:En; cbn [negb].
      * destruct (attach_current "," st) as [st1|] eqn:Ea; [|discriminate].
        cbn [bind]. intros H. injection H as <-.
        pose proof (words_attach "," st st1 eq_refl Ea) as W.
        destruct (inside_list st1); [rewrite words_flush|]; exact W.
      * cbn [bind]. intros H. injection H as <-. rewrite app_nil_r.
        destruct (inside_list st); [apply words_flush | reflexivity].
    + rewrite step_open. cbv zeta. intros H. injection H as <-.
      rewrite words_state, words_fields, words_flush, words_append.
      reflexivity.
    + rewrite step_close. cbv zeta. intros H. injection H as <-.
      rewrite words_state, words_fields, words_flush, words_append.
      rewrite words_state, words_fields, words_flush. reflexivity.
    + rewrite step_semicolon. unfold dropped.
      change (";" =? ",")%string with false.
      change (";" =? ";")%string with true. cbn [andb orb].
      destruct (nonempty (current st)) eqn:En; cbn [negb andb].
      * destruct (attach_current ";" st) as [st1|] eqn:Ea; [|discriminate].
        cbn [bind]. intros H. injection H as <-.
        rewrite words_state, flat_app.
        change (flat [EmptyString]) with (@nil string). rewrite app_nil_r.
        rewrite words_fields, words_flush.
        exact (words_attach ";" st st1 eq_refl Ea).
      * apply nonempty_false in En.
        destruct (nonempty (lines st)) eqn:El; cbn [negb].
        -- destruct (nonempty_snoc _ El) as [l [x E]].
           rewrite E, get_last_snoc. cbn [bind]. rewrite set_last_snoc.
           cbn [bind]. intros H. injection H as <-.
           rewrite words_state. unfold words. rewrite E, En.
           rewrite !flat_app, !flat_cons, tokenize_suffix by reflexivity.
           rewrite tokenize_rstrip. cbn [flat map List.concat].
           rewrite !app_nil_r, <- !app_assoc. reflexivity.
        -- apply nonempty_false in El. cbn [bind].
           intros H. injection H as <-.
           rewrite words_state. unfold words. rewrite El, En. reflexivity.
  - destruct (structural_false tok Es) as [Hc [_ [_ Hs]]].
    unfold dropped. rewrite Hc, Hs. cbn [andb orb].
    destruct (step_word st tok Es) as [st1 [il [gp [Hst ->]]]].
    intros H. injection H as <-. rewrite words_state, flat_app.
    assert (W : words st1 = words st)
      by (destruct Hst as [->| ->]; [reflexivity | apply words_flush]).
    rewrite <- W. unfold words. cbn [flat map List.concat].
    now rewrite app_nil_r, app_assoc.
Qed.

Lemma run_words (tokens : list string) :
  forall st st',
    run st tokens = Some st' ->
    words st' = words st ++ flat (kept_tokens st tokens).
Proof.
  induction tokens as [|tok rest IH]; intros st st' H.
  - injection H as <-. cbn. now rewrite app_nil_r.
  - cbn [run] in H. cbn [kept_tokens].
    destruct (step st tok) as [st1|] eqn:Es; [|discriminate].
    cbn [bind] in H. rewrite (IH _ _ H), (step_words _ _ _ Es).
    rewrite flat_app, <- app_assoc.
    destruct (dropped st tok); [reflexivity|].
    rewrite flat_cons. cbn [flat map List.concat]. now rewrite app_nil_r.
Qed.

(** *** Dropped tokens and the second pass *)

Lemma step_words_nonempty (st st' : fstate) (tok : string) :
  step st tok = Some st' -> words st <> [] -> words st' <> [].
Proof.
  intros H Hw. rewrite (step_words _ _ _ H).
  destruct (words st); [congruence | discriminate].
Qed.

(** Once the state holds a word, a dropped token is a comma on an empty
    pending line, and its iteration changes nothing. *)
Lemma step_dropped (st : fstate) (tok : string) :
  words st <> [] -> dropped st tok = true -> step st tok = Some st.
Proof.
  intros Hw. unfold dropped. intros H.
  apply orb_prop in H. destruct H as [H|H].
  - apply andb_prop in H. destruct H as [Ht Hc].
    apply String.eqb_eq in Ht. subst tok.
    apply CommaDrop.step_comma_empty. apply nonempty_false.
    now destruct (nonempty (current st)).
  - apply andb_prop in H. destruct H as [H Hl].
    apply andb_prop in H. destruct H as [_ Hc].
    exfalso. apply Hw. unfold words.
    rewrite (nonempty_false (current st)), (nonempty_false (lines st));
      [reflexivity | now destruct (nonempty (lines st))
       | now destruct (nonempty (current st))].
Qed.

Lemma run_kept (tokens : list string) :
  forall st, words st <> [] -> run st (kept_tokens st tokens) = run st tokens.
Proof.
  induction tokens as [|tok rest IH]; intros st Hw; [reflexivity|].
  cbn [kept_tokens run].
  destruct (Totality.step_total st tok) as [st1 Es]. rewrite Es. cbn [bind].
  destruct (dropped st tok) eqn:Ed.
  - rewrite (step_dropped st tok Hw Ed) in Es. injection Es as <-.
    cbn [app]. now apply IH.
  - cbn [app run]. rewrite Es. cbn [bind].
    apply IH. exact (step_words_nonempty _ _ _ Es Hw).
Qed.

(** *** Words of the tokenizer *)

Lemma all_plain_snoc (w : string) (c : ascii) :
  all_plain w = true -> plain c = true ->
  all_plain (w +++ String c EmptyString) = true.
Proof.
  intros Hw Hc. induction w as [|x w IH]; cbn [append all_plain].
  - now rewrite Hc.
  - cbn [all_plain] in Hw. apply andb_prop in Hw. destruct Hw as [Hx Hw].
    now rewrite Hx, IH.
Qed.

Lemma pad_plain (t : string) : all_plain t = true -> pad_punct t = t.
Proof.
  induction t as [|c t IH]; [reflexivity|]. cbn [all_plain pad_punct].
  intros H. apply andb_prop in H. destruct H as [Hc Ht].
  unfold plain in Hc. apply andb_prop in Hc. destruct Hc as [_ Hs].
  destruct (is_struct c); [discriminate|]. now rewrite IH.
Qed.

Lemma split_go_plain (t : string) :
  all_plain t = true ->
  forall w, is_empty (w +++ t) = false -> split_go w t = [w +++ t].
Proof.
  induction t as [|c t IH]; intros Ht w Hne.
  - rewrite append_nil_r in *. cbn [split_go]. now rewrite Hne.
  - cbn [all_plain] in Ht. apply andb_prop in Ht. destruct Ht as [Hc Ht].
    unfold plain in Hc. apply andb_prop in Hc. destruct Hc as [Hs _].
    cbn [split_go]. destruct (isspace c); [discriminate|].
    rewrite (IH Ht); rewrite append_assoc; [reflexivity | exact Hne].
Qed.

Lemma plain_word_clean (t : string) :
  all_plain t = true -> is_empty t = false -> clean t.
Proof.
  intros Hp Hne. unfold clean, _tokenize, split.
  rewrite (pad_plain t Hp). now apply (split_go_plain t Hp EmptyString).
Qed.

Lemma struct_word_clean (c : ascii) :
  is_struct c = true -> clean (String c EmptyString).
Proof.
  intros Hc. unfold clean.
  change (String c EmptyString) with (EmptyString +++ String c EmptyString).
  now rewrite tokenize_struct.
Qed.

Lemma word_shape_clean (t : string) : word_shape t -> clean t.
Proof.
  intros [[Hp Hne]|[c [Hc ->]]];
    [now apply plain_word_clean | now apply struct_word_clean].
Qed.

Lemma split_pad_shape (s : string) :
  forall w, all_plain w = true ->
            Forall word_shape (split_go w (pad_punct s)).
Proof.
  induction s as [|c s IH]; intros w Hw.
  - cbn [pad_punct split_go]. destruct (is_empty w) eqn:E; constructor;
      [left; now split | constructor].
  - cbn [pad_punct]. destruct (is_struct c) eqn:Ec.
    + cbn [split_go]. change (isspace " ") with true. cbv iota.
      rewrite (struct_not_space c Ec). cbn [append is_empty].
      assert (Hc : word_shape (String c EmptyString))
        by (right; now exists c).
      destruct (is_empty w) eqn:E.
      * constructor; [exact Hc | now apply IH].
      * constructor; [left; now split|].
        constructor; [exact Hc | now apply IH].
    + cbn [split_go]. destruct (isspace c) eqn:Es.
      * destruct (is_empty w) eqn:E; [now apply IH|].
        constructor; [left; now split | now apply IH].
      * apply IH. apply all_plain_snoc; [assumption|].
        unfold plain. now rewrite Es, Ec.
Qed.

(** Every token of the tokenizer is clean. *)
Lemma tokenize_clean (s : string) : Forall clean (_tokenize s).
Proof.
  unfold _tokenize, split.
  eapply Forall_impl; [exact word_shape_clean|].
  now apply split_pad_shape.
Qed.

(** *** Upper case and the tokenizer *)

Lemma upper_char_isspace (c : ascii) : isspace (upper_char c) = isspace c.
Proof. destruct c as [[] [] [] [] [] [] [] []]; reflexivity. Qed.

Lemma upper_char_struct (c : ascii) : is_struct (upper_char c) = is_struct c.
Proof. destruct c as [[] [] [] [] [] [] [] []]; reflexivity. Qed.

Lemma upper_char_struct_id (c : ascii) :
  is_struct c = true -> upper_char c = c.
Proof.
  destruct c as [[] [] [] [] [] [] [] []]; intros H;
    try reflexivity; discriminate H.
Qed.

Lemma pad_upper (s : string) : pad_punct (upper s) = upper (pad_punct s).
Proof.
  induction s as [|c s IH]; [reflexivity|].
  cbn [upper pad_punct]. rewrite upper_char_struct, IH.
  destruct (is_struct c) eqn:E; [|reflexivity].
  cbn [upper]. reflexivity.
Qed.

Lemma is_empty_upper (s : string) : is_empty (upper s) = is_empty s.
Proof. destruct s; reflexivity. Qed.

Lemma split_go_upper (s : string) :
  forall w, split_go (upper w) (upper s) = map upper (split_go w s).
Proof.
  induction s as [|c s IH]; intros w.
  - cbn [upper split_go]. rewrite is_empty_upper.
    destruct (is_empty w); reflexivity.
  - cbn [upper split_go]. rewrite upper_char_isspace, is_empty_upper.
    destruct (isspace c).
    + destruct (is_empty w); cbn [map]; rewrite <- (IH EmptyString);
        reflexivity.
    + rewrite <- IH, Merger.upper_app. reflexivity.
Qed.

Lemma tokenize_upper (s : string) :
  _tokenize (upper s) = map upper (_tokenize s).
Proof.
  unfold _tokenize, split. rewrite pad_upper.
  exact (split_go_upper (pad_punct s) EmptyString).
Qed.

Lemma clean_upper (t : string) : clean t -> clean (upper t).
Proof. unfold clean. intros H. now rewrite tokenize_upper, H. Qed.

Lemma clean_single (t : string) : clean t -> clean (single t).
Proof.
  intros H. unfold single.
  destruct (mem (upper t) KEYWORDS); [now apply clean_upper | exact H].
Qed.

Lemma single_idem (t : string) :
  single (single t) = single t.
Proof.
  unfold single at 2 3. destruct (mem (upper t) KEYWORDS) eqn:E.
  - unfold single. now rewrite Merger.upper_idem, E.
  - unfold single. now rewrite E.
Qed.

Lemma tokenize_pair (a b : string) :
  clean a -> clean b -> _tokenize (pair a b) = [upper a; upper b].
Proof.
  intros Ha Hb. unfold pair. cbn [append].
  rewrite tokenize_space by reflexivity.
  now rewrite (clean_upper a Ha), (clean_upper b Hb).
Qed.


(** *** Merged sequences *)

Lemma pair_single_l (a b : string) :
  pair (single a) b = pair a b.
Proof. unfold pair. now rewrite Merger.upper_single. Qed.

Lemma pair_upper (a b : string) :
  pair (upper a) (upper b) = pair a b.
Proof. unfold pair. now rewrite !Merger.upper_idem. Qed.

Lemma pair_upper_r (a b b' : string) :
  upper b' = upper b -> pair a b' = pair a b.
Proof. unfold pair. now intros ->. Qed.

(** The first word of what the merger makes of [b :: rest]. *)
Lemma flat_merge_head (b : string) (rest : list string) :
  clean b -> Forall clean rest ->
  exists b' fr,
    flat (_merge_compounds (b :: rest)) = b' :: fr /\ upper b' = upper b.
Proof.
  intros Hb Hrest. destruct rest as [|c rest].
  - rewrite Merger.merge_one, flat_cons, (clean_single b Hb).
    eexists _, _. split; [reflexivity | apply Merger.upper_single].
  - rewrite Merger.merge_two.
    destruct (mem (pair b c) KEYWORDS).
    + rewrite flat_cons, tokenize_pair;
        [|assumption | now inversion Hrest].
      eexists _, _. split; [reflexivity | apply Merger.upper_idem].
    + rewrite flat_cons, (clean_single b Hb).
      eexists _, _. split; [reflexivity | apply Merger.upper_single].
Qed.

Lemma merge_wm_len (n : nat) :
  forall tokens,
    List.length tokens <= n -> Forall clean tokens ->
    wm (_merge_compounds tokens).
Proof.
  induction n as [|n IH]; intros tokens Hlen Hc.
  - destruct tokens; [constructor | simpl in Hlen; lia].
  - destruct tokens as [|a [|b rest]].
    + constructor.
    + rewrite Merger.merge_one. inversion Hc; subst.
      apply wm_word;
        [now apply clean_single | apply single_idem | | constructor].
      intros b fr H. discriminate H.
    + rewrite Merger.merge_two. simpl in Hlen.
      inversion Hc as [|? ? Ha Hc1]; subst.
      inversion Hc1 as [|? ? Hb Hc2]; subst.
      destruct (mem (pair a b) KEYWORDS) eqn:E.
      * apply wm_phrase; try assumption. apply IH; [lia | assumption].
      * apply wm_word;
          [now apply clean_single | apply single_idem | |
           apply IH; [simpl; lia | assumption]].
        intros b' fr Hf.
        destruct (flat_merge_head b rest Hb Hc2) as [b2 [fr2 [Hf2 Hu]]].
        rewrite Hf in Hf2. apply cons_eq_inv in Hf2. destruct Hf2 as [-> _].
        now rewrite pair_single_l, (pair_upper_r a b b2 Hu).
Qed.

Lemma merge_wm (tokens : list string) :
  Forall clean tokens -> wm (_merge_compounds tokens).
Proof. apply (merge_wm_len (List.length tokens)). lia. Qed.

(** Merging the words of a merged sequence gives the sequence back. *)
Lemma wm_merge_flat (K : list string) :
  wm K -> _merge_compounds (flat K) = K.
Proof.
  induction 1 as [|a b rest Ha Hb Hk _ IH|e rest He Hs Hn _ IH].
  - reflexivity.
  - rewrite flat_cons, tokenize_pair by assumption.
    cbn [app]. rewrite Merger.merge_two, pair_upper, Hk, IH. reflexivity.
  - rewrite flat_cons, He. cbn [app].
    destruct (flat rest) as [|b fr] eqn:Ef.
    + rewrite Merger.merge_one, Hs. cbn in IH. now rewrite <- IH.
    + rewrite Merger.merge_two, (Hn b fr Ef), Hs, IH. reflexivity.
Qed.

Lemma wm_head_words (r : string) (rest : list string) :
  wm (r :: rest) -> exists h t, _tokenize r = h :: t.
Proof.
  intros H. inversion H as [|a b ? Ha Hb _ _|e ? He _ _ _]; subst.
  - rewrite tokenize_pair by assumption. eauto.
  - rewrite He. eauto.
Qed.

Lemma structural_no_phrase (e b : string) :
  is_structural e = true -> mem (pair e b) KEYWORDS = false.
Proof.
  intros H.
  destruct (structural_cases e H) as [-> | [-> | [-> | ->]]]; reflexivity.
Qed.

Lemma phrase_not_dropped (st : fstate) (a b : string) :
  dropped st (pair a b) = false.
Proof.
  assert (Hs : forall t, spaces t = 0 ->
                         (pair a b =? t)%string = false).
  { intros t Ht. apply String.eqb_neq. intros E.
    assert (S : spaces (pair a b) = 0) by now rewrite E.
    unfold pair in S. rewrite !Merger.spaces_app in S.
    simpl in S. lia. }
  unfold dropped. now rewrite !Hs.
Qed.

Lemma nonempty_not_dropped (st : fstate) (tok : string) :
  nonempty (current st) = true -> dropped st tok = false.
Proof.
  intros H. unfold dropped. rewrite H. cbn [negb].
  now rewrite !andb_false_r.
Qed.

(** Dropping the tokens that leave no trace keeps a merged sequence
    merged. *)
Lemma wm_kept (M : list string) :
  wm M -> forall st, wm (kept_tokens st M).
Proof.
  induction 1 as [|a b rest Ha Hb Hk _ IH|e rest He Hs Hn Hrest IH];
    intros st.
  - constructor.
  - cbn [kept_tokens].
    destruct (Totality.step_total st (pair a b)) as [st1 ->].
    rewrite phrase_not_dropped. cbn [app]. now apply wm_phrase.
  - cbn [kept_tokens].
    destruct (Totality.step_total st e) as [st1 Es]. rewrite Es.
    destruct (dropped st e) eqn:Ed; [apply IH|].
    cbn [app]. apply wm_word; try assumption; [|apply IH].
    destruct (is_structural e) eqn:Est.
    { intros b fr _. now apply structural_no_phrase. }
    destruct (step_word st e Est) as [st0 [il [gp [_ Es']]]].
    rewrite Es in Es'. injection Es' as ->.
    destruct rest as [|r rest']; [intros b fr H; discriminate H|].
    cbn [kept_tokens].
    destruct (Totality.step_total
                (mkState (lines st0) (current st0 ++ [e])
                         (indent_level st0) il gp) r) as [st2 ->].
    rewrite nonempty_not_dropped
      by (cbn [current]; destruct (current st0); reflexivity).
    cbn [app]. destruct (wm_head_words r rest' Hrest) as [h [t Hr]].
    intros b fr Hf. rewrite flat_cons, Hr in Hf. cbn [app] in Hf.
    apply cons_eq_inv in Hf. destruct Hf as [<- _].
    apply (Hn h (t ++ flat rest')). now rewrite flat_cons, Hr.
Qed.

(** *** The formatted text and its second pass *)

Lemma current_flush (st : fstate) : current (flush_line false st) = [].
Proof.
  unfold flush_line. rewrite orb_false_r.
  destruct (nonempty (current st)) eqn:E; [reflexivity|].
  now apply nonempty_false.
Qed.

(** The tokenizer reads back from the formatted text the words of the
    tokens that were not dropped. *)
Lemma tokenize_formatted (M : list string) (f : string) :
  _format_tokens M = Some f ->
  _tokenize (strip f) = flat (kept_tokens init_state M).
Proof.
  unfold _format_tokens.
  destruct (run init_state M) as [st|] eqn:Er; [|discriminate].
  cbn [bind]. intros H. injection H as <-.
  rewrite tokenize_strip, tokenize_rstrip.
  unfold NL. rewrite tokenize_join by reflexivity.
  pose proof (words_flush st) as W. unfold words at 1 in W.
  rewrite current_flush in W. cbn [flat map List.concat] in W.
  rewrite app_nil_r in W. rewrite W, (run_words M _ _ Er). reflexivity.
Qed.

(** The second pass on the kept tokens goes through the states of the
    first, when the first token is not dropped and holds a word. *)
Lemma run_kept_init (t : string) (rest : list string) :
  dropped init_state t = false ->
  _tokenize t <> [] ->
  run init_state (kept_tokens init_state (t :: rest))
  = run init_state (t :: rest).
Proof.
  intros Hd Ht. cbn [kept_tokens run].
  destruct (Totality.step_total init_state t) as [st1 Es].
  rewrite Es, Hd. cbn [app run bind]. rewrite Es. cbn [bind].
  apply run_kept. rewrite (step_words _ _ _ Es), Hd. cbn [words app].
  exact Ht.
Qed.

Lemma valid_start_not_dropped (t : string) :
  mem (upper t) VALID_STARTS = true -> dropped init_state t = false.
Proof.
  intros H. unfold dropped.
  destruct (String.eqb_spec t ",") as [-> | _]; [discriminate H|].
  destruct (String.eqb_spec t ";") as [-> | _]; [discriminate H|].
  reflexivity.
Qed.

Lemma no_diagnostics_start (M : list string) :
  _check_syntax M = Some [] ->
  M = [] \/ exists t rest, M = t :: rest /\ mem (upper t) VALID_STARTS = true.
Proof.
  destruct M as [|t rest]; [now left|]. right. exists t, rest.
  split; [reflexivity|].
  destruct (Checker.check_syntax_cons t rest) as [x E].
  destruct (mem (upper t) VALID_STARTS) eqn:Em; [reflexivity|].
  rewrite E in H. cbn [app] in H. discriminate H.
Qed.

Lemma single_not_dropped (t : string) :
  t <> "," -> t <> ";" -> dropped init_state (single t) = false.
Proof.
  intros Hc Hs. unfold dropped, single.
  destruct (mem (upper t) KEYWORDS) eqn:E.
  - destruct (String.eqb_spec (upper t) ",") as [Eq | _];
      [rewrite Eq in E; discriminate E|].
    destruct (String.eqb_spec (upper t) ";") as [Eq | _];
      [rewrite Eq in E; discriminate E|].
    reflexivity.
  - destruct (String.eqb_spec t ",") as [Eq | _]; [contradiction|].
    destruct (String.eqb_spec t ";") as [Eq | _]; [contradiction|].
    reflexivity.
Qed.

(** The first token of a merged sequence, when the first token of the
    input is neither a comma nor a semicolon, is kept and holds a word. *)
Lemma merged_head_kept (t0 : string) (T : list string) :
  Forall clean (t0 :: T) ->
  t0 <> "," -> t0 <> ";" ->
  exists y m,
    _merge_compounds (t0 :: T) = y :: m
    /\ dropped init_state y = false
    /\ _tokenize y <> [].
Proof.
  intros Hcl Hc Hs.
  pose proof (merge_wm _ Hcl) as Hwm.
  destruct T as [|b T].
  - rewrite Merger.merge_one in *. exists (single t0), [].
    split; [reflexivity|]. split; [now apply single_not_dropped|].
    destruct (wm_head_words _ _ Hwm) as [h [tl ->]].
    discriminate.
  - rewrite Merger.merge_two in *.
    destruct (mem (pair t0 b) KEYWORDS).
    + eexists _, _. split; [reflexivity|].
      split; [apply phrase_not_dropped|].
      destruct (wm_head_words _ _ Hwm) as [h [tl ->]].
      discriminate.
    + eexists _, _. split; [reflexivity|].
      split; [now apply single_not_dropped|].
      destruct (wm_head_words _ _ Hwm) as [h [tl ->]].
      discriminate.
Qed.

(** Formatting the formatted text of a merged sequence whose first token
    is not dropped gives the same text. *)
Lemma format_tokens_again (tokens : list string) (f : string) :
  Forall clean tokens ->
  match _merge_compounds tokens with
  | [] => True
  | t :: _ => dropped init_state t = false
  end ->
  _format_tokens (_merge_compounds tokens) = Some f ->
  _format_tokens (_merge_compounds (_tokenize (strip f))) = Some f.
Proof.
  intros Hc Hd Hf.
  pose proof (merge_wm tokens Hc) as Hwm.
  rewrite (tokenize_formatted _ f Hf).
  rewrite (wm_merge_flat _ (wm_kept _ Hwm init_state)).
  unfold _format_tokens in *.
  destruct (_merge_compounds tokens) as [|t rest] eqn:Em; [exact Hf|].
  destruct (wm_head_words t rest Hwm) as [h [tl Ht]].
  rewrite run_kept_init; [exact Hf | exact Hd | rewrite Ht; discriminate].
Qed.

(** C3. Formatting is idempotent on well-formed input: when the text
    [s] does not begin with a semicolon or a comma, formatting the
    formatted text of [s] again returns the same formatted text, whatever
    diagnostics the checker has for [s]. *)
Theorem format_idempotent (s f : string) (errors : list string) :
  hd_error (_tokenize s) <> Some ";" ->
  hd_error (_tokenize s) <> Some "," ->
  format_and_check s = Some (f, errors) ->
  exists errors', format_and_check f = Some (f, errors').
Proof.
  intros Hs Hc. unfold format_and_check. rewrite (tokenize_strip s).
  destruct (_format_tokens (_merge_compounds (_tokenize s)))
    as [f0|] eqn:Ef; [|discriminate].
  destruct (_check_syntax (_merge_compounds (_tokenize s)))
    as [errs|]; [|discriminate].
  cbn [bind]. intros H. injection H as -> _.
  pose proof (tokenize_clean s) as Hcl.
  assert (Hd : match _merge_compounds (_tokenize s) with
               | [] => True
               | t :: _ => dropped init_state t = false
               end).
  { destruct (_tokenize s) as [|t0 T]; [exact I|].
    assert (Hc0 : t0 <> ",") by (intros ->; now apply Hc).
    assert (Hs0 : t0 <> ";") by (intros ->; now apply Hs).
    destruct (merged_head_kept t0 T Hcl Hc0 Hs0) as [y [m [-> [Hy _]]]].
    exact Hy. }
  rewrite (format_tokens_again _ f Hcl Hd Ef). cbn [bind].
  destruct (Totality.check_syntax_total
              (_merge_compounds (_tokenize (strip f)))) as [errs' ->].
  cbn [bind]. now exists errs'.
Qed.

Lemma format_idempotent_witness :
  hd_error (_tokenize "with x as (select a, b from t) select * from x")
    <> Some ";"
  /\ hd_error (_tokenize "with x as (select a, b from t) select * from x")
       <> Some ","
  /\ format_and_check "with x as (select a, b from t) select * from x"
     = Some ("WITH x AS (" +++ NL +++ "    SELECT a," +++ NL +++ "    b" +++ NL
             +++ "    FROM t" +++ NL +++ ")" +++ NL +++ "SELECT *" +++ NL
             +++ "FROM x",
             ["SQL must start with a keyword, got 'WITH'.";
              "SQL should end with ';'."])
  /\ exists errors',
      format_and_check
        ("WITH x AS (" +++ NL +++ "    SELECT a," +++ NL +++ "    b" +++ NL
         +++ "    FROM t" +++ NL +++ ")" +++ NL +++ "SELECT *" +++ NL
         +++ "FROM x")
      = Some ("WITH x AS (" +++ NL +++ "    SELECT a," +++ NL +++ "    b"
              +++ NL +++ "    FROM t" +++ NL +++ ")" +++ NL +++ "SELECT *"
              +++ NL +++ "FROM x", errors').
Proof.
  assert (H1 : hd_error
                 (_tokenize "with x as (select a, b from t) select * from x")
               <> Some ";") by (vm_compute; discriminate).
  assert (H2 : hd_error
                 (_tokenize "with x as (select a, b from t) select * from x")
               <> Some ",") by (vm_compute; discriminate).
  assert (H : format_and_check
                "with x as (select a, b from t) select * from x"
              = Some ("WITH x AS (" +++ NL +++ "    SELECT a," +++ NL
                      +++ "    b" +++ NL +++ "    FROM t" +++ NL +++ ")"
                      +++ NL +++ "SELECT *" +++ NL +++ "FROM x",
                      ["SQL must start with a keyword, got 'WITH'.";
                       "SQL should end with ';'."]))
    by (vm_compute; reflexivity).
  split; [exact H1|]. split; [exact H2|]. split; [exact H|].
  exact (format_idempotent
           "with x as (select a, b from t) select * from x" _ _ H1 H2 H).
Defined.

(** The hypotheses are needed: a leading semicolon is dropped by the
    first pass but leaves an empty first line, which the second pass does
    not produce; a leading comma is dropped and lets a semicolon that
    follows it do the same. *)
Lemma leading_semicolon_not_idempotent :
  format_and_check "; select 1;"
  = Some (NL +++ "SELECT 1;", ["SQL must start with a keyword, got ';'."])
  /\ format_and_check (NL +++ "SELECT 1;") = Some ("SELECT 1;", []).
Proof. split; vm_compute; reflexivity. Qed.

Lemma leading_comma_not_idempotent :
  format_and_check ", ; select 1;"
  = Some (NL +++ "SELECT 1;", ["SQL must start with a keyword, got ','."])
  /\ format_and_check (NL +++ "SELECT 1;") = Some ("SELECT 1;", []).
Proof. split; vm_compute; reflexivity. Qed.

End Idempotence.

(** ** split_statements *)

Module SplitterProps.
Import PyStr StrFacts Spec SpecMore Splitter.

(** *** strip *)

Lemma lstrip_head_ok (s : string) : head_ok (lstrip s).
Proof.
  induction s as [|c s IH]; [exact I|]. cbn [lstrip].
  destruct (isspace c) eqn:E; [exact IH | exact E].
Qed.

Lemma head_ok_lstrip (s : string) : head_ok s -> lstrip s = s.
Proof.
  destruct s as [|c s]; [reflexivity|]. cbn [head_ok lstrip].
  now intros ->.
Qed.

Lemma rstrip_head_ok (s : string) : head_ok s -> head_ok (rstrip s).
Proof.
  destruct s as [|c s]; [exact (fun H => H)|]. cbn [head_ok rstrip].
  intros H. destruct (rstrip s); [rewrite H|]; exact H.
Qed.

Lemma rstrip_idem (s : string) : rstrip (rstrip s) = rstrip s.
Proof.
  induction s as [|c s IH]; [reflexivity|]. cbn [rstrip].
  destruct (rstrip s) as [|c' r] eqn:E.
  - destruct (isspace c) eqn:Ec; [reflexivity|].
    cbn [rstrip]. now rewrite Ec.
  - cbn [rstrip]. cbn [rstrip] in IH. rewrite IH. reflexivity.
Qed.

Lemma strip_idem (s : string) : strip (strip s) = strip s.
Proof.
  unfold strip.
  rewrite (head_ok_lstrip (rstrip (lstrip s)))
    by (apply rstrip_head_ok, lstrip_head_ok).
  apply rstrip_idem.
Qed.

Lemma all_space_app (a b : string) :
  all_space (a +++ b) = all_space a && all_space b.
Proof.
  induction a as [|c a IH]; [reflexivity|].
  cbn [append all_space]. rewrite IH. now rewrite andb_assoc.
Qed.

Lemma lstrip_all_space (s : string) :
  all_space s = true -> lstrip s = EmptyString.
Proof.
  induction s as [|c s IH]; [reflexivity|]. cbn [all_space lstrip].
  intros H. apply andb_prop in H. destruct H as [-> Hs]. now apply IH.
Qed.

Lemma strip_all_space (s : string) :
  all_space s = true -> strip s = EmptyString.
Proof. intros H. unfold strip. now rewrite lstrip_all_space. Qed.

Lemma strip_empty_all_space (s : string) :
  strip s = EmptyString -> all_space s = true.
Proof.
  unfold strip. intros H.
  destruct (Retokenize.lstrip_decomp s) as [sp1 [H1 E1]].
  destruct (Retokenize.rstrip_decomp (lstrip s)) as [sp2 [H2 E2]].
  rewrite H in E2. cbn [append] in E2. rewrite E1, E2, all_space_app.
  now rewrite H1, H2.
Qed.

(** *** The loop *)

Lemma scan_app (a b : string) :
  forall st, scan st (a +++ b) = scan (scan st a) b.
Proof.
  induction a as [|c a IH]; intros st; [reflexivity|].
  cbn [append scan]. apply IH.
Qed.

Lemma step_out_cases (st : sstate) (ch : ascii) :
  out (split_step st ch) = out st
  \/ (is_empty (strip (buf st)) = false
      /\ out (split_step st ch) = out st ++ [strip (buf st)]).
Proof.
  unfold split_step. destruct (is_quote ch).
  - left. destruct (negb (in_s st)); [reflexivity|].
    destruct (qt st =? String ch EmptyString)%string; reflexivity.
  - destruct ((ch =? ";")%char && negb (in_s st)); [|now left].
    cbn [out]. destruct (is_empty (strip (buf st))) eqn:E;
      [now left | right; now split].
Qed.

Lemma stripped_strip (s : string) :
  is_empty (strip s) = false -> stripped (strip s).
Proof. intros H. split; [exact H | apply strip_idem]. Qed.

Lemma scan_stripped (sql : string) :
  forall st, Forall stripped (out st) -> Forall stripped (out (scan st sql)).
Proof.
  induction sql as [|ch rest IH]; intros st H; [exact H|].
  cbn [scan]. apply IH.
  destruct (step_out_cases st ch) as [-> | [E ->]]; [exact H|].
  apply Forall_app. split; [exact H|].
  constructor; [now apply stripped_strip | constructor].
Qed.

(** X1. Every statement that [split_statements] returns is non-empty
    and has no white space at either end. *)
Theorem split_segments_stripped (sql : string) :
  Forall stripped (split_statements sql).
Proof.
  unfold split_statements, close.
  pose proof (scan_stripped sql init (Forall_nil _)) as H.
  destruct (is_empty (strip (buf (scan init sql)))) eqn:E; [exact H|].
  apply Forall_app. split; [exact H|].
  constructor; [now apply stripped_strip | constructor].
Qed.

Lemma step_plain_char (st : sstate) (ch : ascii) :
  (ch =? ";")%char = false ->
  out (split_step st ch) = out st
  /\ buf (split_step st ch) = buf st +++ String ch EmptyString.
Proof.
  intros H. unfold split_step. rewrite H. cbn [andb].
  destruct (is_quote ch); [|now split].
  destruct (negb (in_s st)); [now split|].
  destruct (qt st =? String ch EmptyString)%string; now split.
Qed.

Lemma scan_no_semicolon (sql : string) :
  contains ";" sql = false ->
  forall st, out (scan st sql) = out st
             /\ buf (scan st sql) = buf st +++ sql.
Proof.
  induction sql as [|ch rest IH]; intros H st.
  - cbn [scan]. now rewrite append_nil_r.
  - cbn [contains] in H. apply orb_false_elim in H. destruct H as [Hc Hr].
    cbn [scan]. destruct (IH Hr (split_step st ch)) as [-> ->].
    destruct (step_plain_char st ch Hc) as [-> ->].
    split; [reflexivity|]. now rewrite append_assoc.
Qed.

(** X2. A text without a semicolon is one statement, its stripped text,
    or none when it is blank: quotes alone never split. *)
Theorem split_no_semicolon (sql : string) :
  contains ";" sql = false ->
  split_statements sql
  = if is_empty (strip sql) then [] else [strip sql].
Proof.
  intros H. unfold split_statements, close.
  destruct (scan_no_semicolon sql H init) as [-> ->]. reflexivity.
Qed.

Lemma split_no_semicolon_witness :
  contains ";" " select 'a' " = false
  /\ split_statements " select 'a' " = ["select 'a'"].
Proof.
  split; [reflexivity|].
  exact (split_no_semicolon " select 'a' " eq_refl).
Defined.

Lemma space_not_quote (c : ascii) : isspace c = true -> is_quote c = false.
Proof.
  destruct c as [[] [] [] [] [] [] [] []]; intros H;
    try reflexivity; discriminate H.
Qed.

Lemma semicolon_not_quote : is_quote ";" = false.
Proof. reflexivity. Qed.

Lemma scan_all_sep (sql : string) :
  all_sep sql = true ->
  forall st,
    out st = [] -> all_space (buf st) = true -> in_s st = false ->
    close (scan st sql) = [].
Proof.
  induction sql as [|ch rest IH]; intros H st Ho Hb Hi.
  - cbn [scan]. unfold close. now rewrite strip_all_space, Ho.
  - cbn [all_sep] in H. apply andb_prop in H. destruct H as [Hc Hr].
    cbn [scan]. apply (IH Hr); unfold split_step.
    + destruct (ch =? ";")%char eqn:Es.
      * apply Ascii.eqb_eq in Es. subst ch. rewrite semicolon_not_quote, Hi.
        cbn [andb negb out]. now rewrite strip_all_space.
      * rewrite orb_false_r in Hc. rewrite (space_not_quote ch Hc).
        cbn [andb]. exact Ho.
    + destruct (ch =? ";")%char eqn:Es.
      * apply Ascii.eqb_eq in Es. subst ch. rewrite semicolon_not_quote, Hi.
        reflexivity.
      * rewrite orb_false_r in Hc. rewrite (space_not_quote ch Hc).
        cbn [andb push buf]. rewrite all_space_app, Hb.
        cbn [all_space]. now rewrite Hc.
    + destruct (ch =? ";")%char eqn:Es.
      * apply Ascii.eqb_eq in Es. subst ch. rewrite semicolon_not_quote, Hi.
        reflexivity.
      * rewrite orb_false_r in Hc. rewrite (space_not_quote ch Hc).
        cbn [andb]. exact Hi.
Qed.

(** X3. A text of white space and semicolons only has no statement:
    empty statements are never returned. *)
Theorem split_blank (sql : string) :
  all_sep sql = true -> split_statements sql = [].
Proof. intros H. now apply (scan_all_sep sql H init). Qed.

Lemma split_blank_witness :
  all_sep " ; ;; " = true /\ split_statements " ; ;; " = [].
Proof.
  split; [reflexivity|]. exact (split_blank " ; ;; " eq_refl).
Defined.

(** *** Splitting at a semicolon outside a string *)

Lemma step_same_mode (st1 st2 : sstate) (ch : ascii) :
  same_mode st1 st2 -> same_mode (split_step st1 ch) (split_step st2 ch).
Proof.
  destruct st1 as [o1 b1 i1 q1], st2 as [o2 b2 i2 q2].
  unfold same_mode. cbn [out buf in_s qt].
  intros [-> [-> [-> Hq]]]. unfold split_step. cbn [out buf in_s qt].
  destruct (is_quote ch).
  - destruct i2; cbn [negb].
    + rewrite (Hq eq_refl).
      destruct (q2 =? String ch EmptyString)%string;
        cbn [push out buf in_s qt]; repeat split; congruence.
    + cbn [push out buf in_s qt]. repeat split.
  - destruct ((ch =? ";")%char && negb i2);
      cbn [push out buf in_s qt]; repeat split; exact Hq.
Qed.

Lemma scan_same_mode (sql : string) :
  forall st1 st2, same_mode st1 st2 -> same_mode (scan st1 sql) (scan st2 sql).
Proof.
  induction sql as [|ch rest IH]; intros st1 st2 H; [exact H|].
  cbn [scan]. apply IH. now apply step_same_mode.
Qed.

Lemma close_same_mode (st1 st2 : sstate) :
  same_mode st1 st2 -> close st1 = close st2.
Proof. intros [Ho [Hb _]]. unfold close. now rewrite Ho, Hb. Qed.

Lemma step_out_prefix (o0 o : list string) (b : string) (i : bool)
      (q : string) (ch : ascii) :
  split_step (mkS (o0 ++ o) b i q) ch
  = let st := split_step (mkS o b i q) ch in
    mkS (o0 ++ out st) (buf st) (in_s st) (qt st).
Proof.
  unfold split_step. cbn [out buf in_s qt].
  destruct (is_quote ch).
  - destruct (negb i); [reflexivity|].
    destruct (q =? String ch EmptyString)%string; reflexivity.
  - destruct ((ch =? ";")%char && negb i); [|reflexivity].
    cbv zeta. cbn [out buf in_s qt].
    destruct (is_empty (strip b)); [reflexivity | now rewrite app_assoc].
Qed.

Lemma scan_out_prefix (sql : string) (o0 : list string) :
  forall o b i q,
    close (scan (mkS (o0 ++ o) b i q) sql)
    = o0 ++ close (scan (mkS o b i q) sql).
Proof.
  induction sql as [|ch rest IH]; intros o b i q.
  - cbn [scan]. unfold close. cbn [out buf].
    destruct (is_empty (strip b)); [reflexivity | now rewrite app_assoc].
  - cbn [scan]. rewrite step_out_prefix. cbv zeta.
    destruct (split_step (mkS o b i q) ch) as [o' b' i' q'].
    cbn [out buf in_s qt]. apply IH.
Qed.

Lemma step_semicolon_outside (st : sstate) :
  in_s st = false ->
  split_step st ";" = mkS (close st) EmptyString false (qt st).
Proof.
  destruct st as [o b i q]. cbn [in_s]. intros ->. reflexivity.
Qed.

(** X4. A semicolon met outside a string separates: when the scan of
    [a] ends outside a string, the statements of [a;b] are those of [a]
    followed by those of [b]. *)
Theorem split_at_semicolon (a b : string) :
  in_s (scan init a) = false ->
  split_statements (a +++ String ";" b)
  = split_statements a ++ split_statements b.
Proof.
  intros Hi. unfold split_statements.
  rewrite scan_app. cbn [scan]. rewrite (step_semicolon_outside _ Hi).
  rewrite <- (app_nil_r (close (scan init a))) at 1.
  rewrite scan_out_prefix. f_equal.
  apply close_same_mode, scan_same_mode.
  repeat split. cbn [in_s]. discriminate.
Qed.

Lemma split_at_semicolon_witness :
  in_s (scan init "a 'x;y'") = false
  /\ split_statements ("a 'x;y'" +++ String ";" " b")
     = split_statements "a 'x;y'" ++ split_statements " b".
Proof.
  split; [reflexivity|].
  exact (split_at_semicolon "a 'x;y'" " b" eq_refl).
Defined.

(** *** An open string *)

Lemma quote_not_space (q : ascii) : is_quote q = true -> isspace q = false.
Proof.
  intros H. destruct (isspace q) eqn:E; [|reflexivity].
  apply space_not_quote in E. congruence.
Qed.

Lemma scan_inside (q : ascii) (b : string) :
  contains q b = false ->
  forall o bf,
    scan (mkS o bf true (String q EmptyString)) b
    = mkS o (bf +++ b) true (String q EmptyString).
Proof.
  induction b as [|ch rest IH]; intros H o bf.
  - cbn [scan]. now rewrite append_nil_r.
  - cbn [contains] in H. apply orb_false_elim in H. destruct H as [Hc Hr].
    cbn [scan]. unfold split_step. cbn [in_s qt negb andb].
    rewrite andb_false_r.
    assert (E : (String q EmptyString =? String ch EmptyString)%string = false).
    { cbn [String.eqb]. rewrite Ascii.eqb_sym, Hc. reflexivity. }
    rewrite E.
    destruct (is_quote ch); unfold push; cbn [out buf in_s qt];
      rewrite (IH Hr), append_assoc; reflexivity.
Qed.

Lemma scan_outside (a : string) :
  contains ";" a = false ->
  contains "039" a = false ->
  contains "034" a = false ->
  forall o bf q,
    scan (mkS o bf false q) a = mkS o (bf +++ a) false q.
Proof.
  induction a as [|ch rest IH]; intros Hs H1 H2 o bf q.
  - cbn [scan]. now rewrite append_nil_r.
  - cbn [contains] in Hs, H1, H2.
    apply orb_false_elim in Hs. destruct Hs as [Hs Hs'].
    apply orb_false_elim in H1. destruct H1 as [H1 H1'].
    apply orb_false_elim in H2. destruct H2 as [H2 H2'].
    cbn [scan]. unfold split_step, is_quote. rewrite H1, H2, Hs.
    cbn [orb andb]. unfold push. cbn [out buf in_s qt].
    rewrite (IH Hs' H1' H2'), append_assoc. reflexivity.
Qed.

(** X5. A quote that is never closed takes the rest of the text into its
    statement: after a prefix without quotes and semicolons, the text is
    returned as one statement, whatever semicolons follow the quote. *)
Theorem split_open_quote (a : string) (q : ascii) (b : string) :
  is_quote q = true ->
  contains ";" a = false ->
  contains "039" a = false ->
  contains "034" a = false ->
  contains q b = false ->
  split_statements (a +++ String q b) = [strip (a +++ String q b)].
Proof.
  intros Hq Hs H1 H2 Hb. unfold split_statements, init.
  rewrite scan_app, (scan_outside a Hs H1 H2). cbn [append scan].
  unfold split_step at 1. rewrite Hq. cbn [in_s negb]. unfold push.
  cbn [out buf in_s qt].
  rewrite (scan_inside q b Hb), append_assoc. cbn [append].
  unfold close. cbn [out buf app].
  destruct (is_empty (strip (a +++ String q b))) eqn:E; [|reflexivity].
  exfalso.
  assert (Hz : strip (a +++ String q b) = EmptyString)
    by (destruct (strip (a +++ String q b)); [reflexivity | discriminate E]).
  apply strip_empty_all_space in Hz. rewrite all_space_app in Hz.
  cbn [all_space] in Hz. rewrite (quote_not_space q Hq) in Hz.
  cbn [andb] in Hz. rewrite andb_false_r in Hz. discriminate Hz.
Qed.

Lemma split_open_quote_witness :
  split_statements ("select " +++ String "039" "x; drop t;")
  = [strip ("select " +++ String "039" "x; drop t;")].
Proof.
  exact (split_open_quote "select " "039" "x; drop t;"
                          eq_refl eq_refl eq_refl eq_refl eq_refl).
Defined.

End SplitterProps.

(** ** More about the formatter *)

Module FormatterMore.
Import PyStr SQLFormatter StrFacts Spec SpecMore Retokenize.

(** *** Blank input *)

(** X6. A blank text, empty or of white space only, is formatted as the
    empty text with no diagnostic: none of the three checks applies to an
    empty token sequence. *)
Theorem format_blank (sql : string) :
  all_space sql = true -> format_and_check sql = Some (EmptyString, []).
Proof.
  intros H. unfold format_and_check.
  rewrite (SplitterProps.strip_all_space sql H). reflexivity.
Qed.

Lemma format_blank_witness :
  all_space ("  " +++ NL +++ " ") = true
  /\ format_and_check ("  " +++ NL +++ " ") = Some (EmptyString, []).
Proof.
  split; [reflexivity|].
  exact (format_blank ("  " +++ NL +++ " ") eq_refl).
Defined.

(** *** No diagnostic *)

Lemma check_parens_find (tokens : list string) :
  check_parens tokens =
  match first_unmatched tokens with
  | Some idx => [msg_unmatched idx; msg_unbalanced]
  | None => if (depth tokens =? 0)%Z then [] else [msg_unbalanced]
  end.
Proof.
  unfold check_parens, first_unmatched.
  rewrite (Checker.paren_scan_find tokens 0 0) by lia.
  destruct (find _ _); reflexivity.
Qed.

Lemma check_syntax_last (t : string) (rest : list string) (x : string) :
  get_last (t :: rest) = Some x ->
  _check_syntax (t :: rest)
  = Some ((if mem (upper t) VALID_STARTS then [] else [msg_start t])
          ++ check_parens (t :: rest)
          ++ (if (x =? ";")%string then [] else [msg_semicolon])).
Proof.
  intros E. unfold _check_syntax, check_start, check_end, get_first.
  cbn [nonempty nth_error bind]. rewrite E. cbn [bind].
  destruct (mem (upper t) VALID_STARTS);
    destruct (x =? ";")%string; reflexivity.
Qed.

(** X7. The checker reports nothing exactly when the token sequence is
    empty, or starts with a valid statement keyword, never closes a
    parenthesis that is not open, closes every open parenthesis and ends
    with a semicolon. *)
Theorem no_diagnostic_iff (tokens : list string) :
  _check_syntax tokens = Some [] <->
  tokens = []
  \/ ((exists t rest, tokens = t :: rest
                      /\ mem (upper t) VALID_STARTS = true)
      /\ first_unmatched tokens = None
      /\ depth tokens = 0%Z
      /\ get_last tokens = Some ";").
Proof.
  destruct tokens as [|t rest]; [split; [now left | reflexivity]|].
  destruct (get_last_nonempty (t :: rest) eq_refl) as [x Ex].
  rewrite (check_syntax_last t rest x Ex), check_parens_find, Ex.
  split.
  - intros H. right.
    destruct (mem (upper t) VALID_STARTS) eqn:Em;
      [|cbn [app] in H; discriminate H].
    destruct (first_unmatched (t :: rest)) eqn:Ef;
      [cbn [app] in H; discriminate H|].
    destruct (depth (t :: rest) =? 0)%Z eqn:Ed;
      [|cbn [app] in H; discriminate H].
    destruct (x =? ";")%string eqn:Es;
      [|cbn [app] in H; discriminate H].
    apply String.eqb_eq in Es. subst x. apply Z.eqb_eq in Ed.
    repeat split; try assumption. now exists t, rest.
  - intros [H | [[t' [rest' [E Hm]]] [Hf [Hd Hl]]]]; [discriminate H|].
    apply cons_eq_inv in E. destruct E as [<- _].
    injection Hl as ->. rewrite Hm, Hf, Hd. reflexivity.
Qed.

(** *** The merger *)

Lemma merge_members_len (n : nat) :
  forall tokens e,
    List.length tokens <= n ->
    In e (_merge_compounds tokens) ->
    mem e KEYWORDS = true \/ In e tokens.
Proof.
  induction n as [|n IH]; intros tokens e Hlen Hin.
  - destruct tokens; [destruct Hin | simpl in Hlen; lia].
  - destruct tokens as [|a [|b rest]].
    + destruct Hin.
    + rewrite Merger.merge_one in Hin. destruct Hin as [<- | []].
      unfold single. destruct (mem (upper a) KEYWORDS) eqn:E;
        [now left | right; now left].
    + rewrite Merger.merge_two in Hin. simpl in Hlen.
      destruct (mem (pair a b) KEYWORDS) eqn:E.
      * destruct Hin as [<- | Hin]; [now left|].
        destruct (IH rest e) as [H | H]; [lia | assumption | now left |].
        right. now right; right.
      * destruct Hin as [<- | Hin].
        -- unfold single. destruct (mem (upper a) KEYWORDS) eqn:E1;
             [now left | right; now left].
        -- destruct (IH (b :: rest) e) as [H | H];
             [simpl; lia | assumption | now left |].
           right. now right.
Qed.

(** X8. The merger upper-cases keywords only: every token of the merged
    sequence is a phrase of the keyword table or a token of the input,
    unchanged. *)
Theorem merge_keeps_other_tokens (tokens : list string) (e : string) :
  In e (_merge_compounds tokens) ->
  mem e KEYWORDS = true \/ In e tokens.
Proof. apply (merge_members_len (List.length tokens)). lia. Qed.

Lemma merge_keeps_other_tokens_witness :
  In "Users" (_merge_compounds ["select"; "Users"])
  /\ (mem "Users" KEYWORDS = true \/ In "Users" ["select"; "Users"]).
Proof.
  assert (H : In "Users" (_merge_compounds ["select"; "Users"]))
    by (right; left; reflexivity).
  split; [exact H|].
  exact (merge_keeps_other_tokens ["select"; "Users"] "Users" H).
Defined.

Lemma merge_words_len (n : nat) :
  forall tokens,
    List.length tokens <= n -> Forall Spec.clean tokens ->
    map upper (flat (_merge_compounds tokens)) = map upper tokens.
Proof.
  induction n as [|n IH]; intros tokens Hlen Hc.
  - destruct tokens; [reflexivity | simpl in Hlen; lia].
  - destruct tokens as [|a [|b rest]]; [reflexivity| |].
    + inversion Hc; subst.
      rewrite Merger.merge_one, flat_cons,
        (Idempotence.clean_single a) by assumption.
      cbn [app flat map List.concat]. now rewrite Merger.upper_single.
    + inversion Hc as [|? ? Ha Hc1]; subst.
      inversion Hc1 as [|? ? Hb Hc2]; subst.
      rewrite Merger.merge_two. simpl in Hlen.
      destruct (mem (pair a b) KEYWORDS).
      * rewrite flat_cons, Idempotence.tokenize_pair by assumption.
        cbn [app map]. rewrite !Merger.upper_idem, IH by (assumption || lia).
        reflexivity.
      * rewrite flat_cons, (Idempotence.clean_single a) by assumption.
        cbn [app map]. rewrite Merger.upper_single.
        rewrite (IH (b :: rest)) by (assumption || (simpl; lia)).
        reflexivity.
Qed.

(** X9. Merging loses no word: up to letter case, the words of the
    merged sequence, phrases split at their space, are the tokens of the
    input text in order. *)
Theorem merge_preserves_words (sql : string) :
  map upper (flat (_merge_compounds (_tokenize sql)))
  = map upper (_tokenize sql).
Proof.
  apply (merge_words_len (List.length (_tokenize sql))); [lia|].
  apply Idempotence.tokenize_clean.
Qed.

Lemma phrase_then_no_phrase (a b r : string) :
  mem (pair (pair a b) r) KEYWORDS = false.
Proof.
  destruct (mem _ KEYWORDS) eqn:E; [|reflexivity].
  apply Merger.keyword_spaces in E. unfold pair in E.
  rewrite !Merger.spaces_app, !Merger.spaces_upper in E.
  rewrite !Merger.spaces_app in E. simpl in E. lia.
Qed.

Lemma word_then_phrase_no_phrase (e a b : string) :
  mem (pair e (pair a b)) KEYWORDS = false.
Proof.
  destruct (mem _ KEYWORDS) eqn:E; [|reflexivity].
  apply Merger.keyword_spaces in E. unfold pair in E.
  rewrite !Merger.spaces_app, !Merger.spaces_upper in E.
  rewrite !Merger.spaces_app in E. simpl in E. lia.
Qed.

Lemma single_phrase (a b : string) :
  mem (pair a b) KEYWORDS = true -> single (pair a b) = pair a b.
Proof.
  intros H. unfold single. rewrite Merger.upper_pair, H. reflexivity.
Qed.

Lemma wm_merge_fixed (K : list string) :
  Spec.wm K -> _merge_compounds K = K.
Proof.
  induction 1 as [|a b rest Ha Hb Hk Hrest IH|e rest He Hs Hn Hrest IH].
  - reflexivity.
  - destruct rest as [|r rest'].
    + rewrite Merger.merge_one, single_phrase by assumption. reflexivity.
    + rewrite Merger.merge_two, phrase_then_no_phrase, IH,
        single_phrase by assumption. reflexivity.
  - destruct rest as [|r rest'].
    + rewrite Merger.merge_one, Hs. reflexivity.
    + rewrite Merger.merge_two, IH, Hs.
      assert (E : mem (pair e r) KEYWORDS = false).
      { inversion Hrest as [|a b ? Ha Hb _ _|e' ? He' _ _ _]; subst.
        - apply word_then_phrase_no_phrase.
        - apply (Hn r (flat rest')). now rewrite flat_cons, He'. }
      rewrite E. reflexivity.
Qed.

(** X10. Merging is idempotent on the tokens of a text: a merged
    sequence is left unchanged by a second merge. *)
Theorem merge_idempotent (sql : string) :
  _merge_compounds (_merge_compounds (_tokenize sql))
  = _merge_compounds (_tokenize sql).
Proof.
  apply wm_merge_fixed, Idempotence.merge_wm, Idempotence.tokenize_clean.
Qed.

(** *** The formatted text has the words of the input *)






(** *** Indentation *)

Lemma indent_flush (st : fstate) :
  indent_level (flush_line false st) = indent_level st.
Proof.
  unfold flush_line. destruct (nonempty (current st) || false); reflexivity.
Qed.

Lemma indent_attach (suffix : string) (st st' : fstate) :
  attach_current suffix st = Some st' -> indent_level st' = indent_level st.
Proof.
  unfold attach_current.
  destruct (get_last (current st)) as [x|]; [|discriminate]. cbn [bind].
  destruct (set_last (current st) (x +++ suffix)) as [c|]; [|discriminate].
  cbn [bind]. intros H. injection H as <-. reflexivity.
Qed.

(** The indent level after one iteration. *)
Lemma step_indent (st st' : fstate) (tok : string) :
  step st tok = Some st' ->
  indent_level st' =
  if (tok =? ";")%string then 0%Z
  else if (tok =? ")")%string then Z.max 0 (indent_level st - 1)
  else if (tok =? "(")%string then (indent_level st + 1)%Z
  else indent_level st.
Proof.
  destruct (is_structural tok) eqn:Es.
  - destruct (Idempotence.structural_cases tok Es)
      as [-> | [-> | [-> | ->]]].
    + rewrite Idempotence.step_comma.
      destruct (nonempty (current st)).
      * destruct (attach_current "," st) as [st1|] eqn:Ea; [|discriminate].
        cbn [bind]. intros H. injection H as <-.
        pose proof (indent_attach _ _ _ Ea) as I1.
        destruct (inside_list st1); [rewrite indent_flush|]; exact I1.
      * cbn [bind]. intros H. injection H as <-.
        destruct (inside_list st); [apply indent_flush | reflexivity].
    + rewrite Idempotence.step_open. cbv zeta. intros H. injection H as <-.
      cbn [indent_level]. rewrite indent_flush. reflexivity.
    + rewrite Idempotence.step_close. cbv zeta. intros H. injection H as <-.
      cbn [indent_level]. rewrite indent_flush. cbn [append_current indent_level].
      rewrite indent_flush. reflexivity.
    + rewrite Idempotence.step_semicolon.
      destruct (nonempty (current st)).
      * destruct (attach_current ";" st) as [st1|]; [|discriminate].
        cbn [bind]. intros H. injection H as <-. reflexivity.
      * destruct (nonempty (lines st)).
        -- destruct (get_last (lines st)) as [x|]; [|discriminate].
           cbn [bind].
           destruct (set_last (lines st) (rstrip x +++ ";")) as [l|];
             [|discriminate].
           cbn [bind]. intros H. injection H as <-. reflexivity.
        -- cbn [bind]. intros H. injection H as <-. reflexivity.
  - destruct (Idempotence.structural_false tok Es) as [_ [Ho [Hc Hs]]].
    rewrite Hs, Hc, Ho.
    destruct (Idempotence.step_word st tok Es) as [st1 [il [gp [Hst ->]]]].
    intros H. injection H as <-. cbn [indent_level].
    destruct Hst as [-> | ->]; [reflexivity | apply indent_flush].
Qed.

Lemma run_indent_nonneg (tokens : list string) :
  forall st st',
    run st tokens = Some st' ->
    (0 <= indent_level st)%Z -> (0 <= indent_level st')%Z.
Proof.
  induction tokens as [|tok rest IH]; intros st st' H Hi.
  - injection H as <-. exact Hi.
  - cbn [run] in H. destruct (step st tok) as [st1|] eqn:Es; [|discriminate].
    cbn [bind] in H. apply (IH _ _ H).
    rewrite (step_indent _ _ _ Es).
    destruct (tok =? ";")%string; [lia|].
    destruct (tok =? ")")%string; [lia|].
    destruct (tok =? "(")%string; lia.
Qed.

(** X12. The indent level is never negative, whatever the tokens are: a
    close parenthesis that is not open leaves it at zero. *)
Theorem indent_never_negative (tokens : list string) (st : fstate) :
  run init_state tokens = Some st -> (0 <= indent_level st)%Z.
Proof.
  intros H. apply (run_indent_nonneg tokens init_state st H).
  cbn [init_state indent_level]. lia.
Qed.

Lemma indent_never_negative_witness :
  run init_state [")"; ")"; "a"] = Some (mkState [")"; ")"] ["a"] 0 false false)
  /\ (0 <= indent_level (mkState [")"; ")"] ["a"] 0 false false))%Z.
Proof.
  assert (H : run init_state [")"; ")"; "a"]
              = Some (mkState [")"; ")"] ["a"] 0 false false))
    by reflexivity.
  split; [exact H|].
  exact (indent_never_negative [")"; ")"; "a"] _ H).
Defined.

Lemma run_indent_depth (tokens : list string) :
  forall st st',
    ~ In ";" tokens ->
    (forall k, 0 <= indent_level st + depth (firstn k tokens))%Z ->
    run st tokens = Some st' ->
    indent_level st' = (indent_level st + depth tokens)%Z.
Proof.
  induction tokens as [|tok rest IH]; intros st st' Hs Hk H.
  - injection H as <-. rewrite Checker.depth_nil. lia.
  - cbn [run] in H. destruct (step st tok) as [st1|] eqn:Es; [|discriminate].
    cbn [bind] in H.
    assert (E1 : indent_level st1 = (indent_level st + paren_delta tok)%Z).
    { rewrite (step_indent _ _ _ Es). unfold paren_delta.
      destruct (String.eqb_spec tok ";") as [-> | _];
        [exfalso; apply Hs; now left|].
      destruct (tok =? ")")%string eqn:Ec.
      - apply String.eqb_eq in Ec. subst tok.
        change (")" =? "(")%string with false. cbv iota.
        specialize (Hk 1). cbn [firstn] in Hk.
        rewrite Checker.depth_cons, Checker.depth_nil in Hk.
        unfold paren_delta in Hk.
        change (")" =? "(")%string with false in Hk.
        change (")" =? ")")%string with true in Hk. cbv iota in Hk. lia.
      - destruct (tok =? "(")%string; lia. }
    rewrite (IH st1 st') ; [| | | exact H].
    + rewrite E1, Checker.depth_cons. lia.
    + intros Hin. apply Hs. now right.
    + intros k. specialize (Hk (S k)). cbn [firstn] in Hk.
      rewrite Checker.depth_cons in Hk. rewrite E1. lia.
Qed.

(** X13. While no parenthesis is closed before it is opened, the indent
    level of a statement is its paren balance: the number of parentheses
    open at the end of the tokens. *)
Theorem indent_is_depth (tokens : list string) (st : fstate) :
  ~ In ";" tokens ->
  (forall k, 0 <= depth (firstn k tokens))%Z ->
  run init_state tokens = Some st ->
  indent_level st = depth tokens.
Proof.
  intros Hs Hk H.
  rewrite (run_indent_depth tokens init_state st Hs); [reflexivity | | exact H].
  intros k. cbn [init_state indent_level]. specialize (Hk k). lia.
Qed.

Lemma indent_is_depth_witness :
  run init_state ["SELECT"; "("; "a"]
  = Some (mkState ["SELECT ("] ["a"] 1 true false)
  /\ indent_level (mkState ["SELECT ("] ["a"] 1 true false)
     = depth ["SELECT"; "("; "a"].
Proof.
  assert (H : run init_state ["SELECT"; "("; "a"]
              = Some (mkState ["SELECT ("] ["a"] 1 true false))
    by reflexivity.
  split; [exact H|].
  apply (indent_is_depth ["SELECT"; "("; "a"]); [ | | exact H].
  - intros [E | [E | [E | []]]]; discriminate E.
  - intros [|[|[|k]]]; cbn [firstn]; rewrite ?firstn_nil; vm_compute;
      discriminate.
Defined.

End FormatterMore.

(** ** More about the highlighter *)

Module HighlightMore.
Import PyStr StrFacts Spec SpecMore Highlight Lossless.

Lemma length_take (s : string) :
  forall n, String.length (take n s) = Nat.min n (String.length s).
Proof.
  induction s as [|c s IH]; intros n.
  - destruct n; reflexivity.
  - destruct n as [|n]; [reflexivity|]. cbn [take String.length].
    rewrite IH. reflexivity.
Qed.

Lemma slice_length (s : string) (a b : nat) :
  b <= String.length s -> String.length (slice s a b) = b - a.
Proof.
  intros H. unfold slice.
  rewrite substring_take_drop, length_take, length_drop. lia.
Qed.

Lemma nonempty_length (s : string) :
  0 < String.length s -> s <> EmptyString.
Proof. destruct s; [simpl; lia | discriminate]. Qed.

Lemma lex_step_token (s : string) (p : nat) (out : list token) (m : Match) :
  lex_step s (p, out) m
  = (m_end m,
     out ++ (if (m_start m =? p)%nat then []
             else [("ident", slice s p (m_start m))])
         ++ [match_token s m]).
Proof.
  unfold lex_step, match_token.
  destruct (m_start m =? p)%nat; cbn [negb]; destruct (lastgroup m);
    rewrite <- ?app_assoc; try reflexivity;
    destruct (mem (upper (slice s (m_start m) (m_end m))) KEYWORDS);
    rewrite <- ?app_assoc; reflexivity.
Qed.

(** A property of the fallback tokens and of the tokens of the matches
    is a property of all the tokens. *)
Lemma scan_forall (P : token -> Prop) (s : string) :
  (forall a b, a < b -> b <= String.length s -> P ("ident", slice s a b)) ->
  (forall pos g n,
      master (drop pos s) = Some (g, n) ->
      1 <= n -> pos + n <= String.length s ->
      P (match_token s (mkMatch pos (pos + n) g))) ->
  forall fuel pos p out,
    p <= pos ->
    Forall P out ->
    Forall P (finish s (fold_left (lex_step s)
                                  (finditer_from fuel pos (drop pos s))
                                  (p, out))).
Proof.
  intros Hgap Hmatch.
  assert (Hfin : forall p out, Forall P out -> Forall P (finish s (p, out))).
  { intros p out Ho. unfold finish.
    destruct (p <? String.length s)%nat eqn:E; [|exact Ho].
    apply Nat.ltb_lt in E. apply Forall_app. split; [exact Ho|].
    constructor; [apply Hgap; lia | constructor]. }
  induction fuel as [|fuel IH]; intros pos p out Hp Ho.
  - cbn [finditer_from fold_left]. now apply Hfin.
  - cbn [finditer_from].
    destruct (drop pos s) as [|c rest'] eqn:Ed.
    { cbn [fold_left]. now apply Hfin. }
    assert (Hlen : pos < String.length s).
    { pose proof (length_drop s pos) as L. rewrite Ed in L. simpl in L. lia. }
    destruct (master (String c rest')) as [[g n]|] eqn:Em.
    + pose proof (master_within _ _ _ Em) as Hn.
      rewrite <- Ed, length_drop in Hn. rewrite <- Ed in Em.
      cbn [fold_left]. rewrite lex_step_token. cbn [m_start m_end].
      rewrite <- Ed, <- drop_add. apply IH; [lia|].
      apply Forall_app. split; [exact Ho|].
      apply Forall_app. split.
      * destruct (pos =? p)%nat eqn:E; [constructor|].
        apply Nat.eqb_neq in E.
        constructor; [apply Hgap; lia | constructor].
      * constructor; [apply Hmatch; (assumption || lia) | constructor].
    + rewrite <- (drop_tail s c rest' pos Ed). apply IH; [lia | exact Ho].
Qed.

Lemma tokenize_forall (P : token -> Prop) (s : string) :
  (forall a b, a < b -> b <= String.length s -> P ("ident", slice s a b)) ->
  (forall pos g n,
      master (drop pos s) = Some (g, n) ->
      1 <= n -> pos + n <= String.length s ->
      P (match_token s (mkMatch pos (pos + n) g))) ->
  Forall P (highlight_sql_tokenize s).
Proof.
  intros Hgap Hmatch. rewrite tokenize_finish. unfold finditer.
  apply (scan_forall P s Hgap Hmatch (String.length s) 0 0 []);
    [lia | constructor].
Qed.

Lemma match_token_text (s : string) (m : Match) :
  snd (match_token s m) = slice s (m_start m) (m_end m)
  \/ snd (match_token s m) = upper (slice s (m_start m) (m_end m)).
Proof.
  unfold match_token. destruct (lastgroup m); try (now left).
  destruct (mem _ KEYWORDS); [now right | now left].
Qed.

(** X14. No token of the highlighter has an empty text: the renderer
    advances by at least one character at every token. *)
Theorem tokens_not_empty (s : string) :
  Forall (fun tok => snd tok <> EmptyString) (highlight_sql_tokenize s).
Proof.
  apply tokenize_forall.
  - intros a b Hab Hb. cbn [snd]. apply nonempty_length.
    rewrite slice_length by assumption. lia.
  - intros pos g n _ Hn Hlen.
    assert (L : 0 < String.length (slice s pos (pos + n)))
      by (rewrite slice_length by assumption; lia).
    destruct (match_token_text s (mkMatch pos (pos + n) g)) as [-> | ->];
      cbn [m_start m_end]; apply nonempty_length;
      rewrite ?upper_length; exact L.
Qed.

(** X15. Every token has one of the nine categories, and the text of a
    keyword token is a word of the reserved vocabulary, so in upper
    case. *)
Theorem token_categories (s : string) :
  Forall (fun tok =>
            In (fst tok) CATEGORIES
            /\ (fst tok = "keyword" -> mem (snd tok) KEYWORDS = true))
         (highlight_sql_tokenize s).
Proof.
  apply tokenize_forall.
  - intros a b _ _. cbn [fst snd]. split; [|discriminate].
    unfold CATEGORIES. simpl. tauto.
  - intros pos g n _ _ _. unfold match_token. cbn [lastgroup m_start m_end].
    destruct g; cbn [fst snd];
      try (split; [unfold CATEGORIES; simpl; tauto | discriminate]).
    destruct (mem (upper (slice s pos (pos + n))) KEYWORDS) eqn:E;
      cbn [fst snd].
    + split; [unfold CATEGORIES; simpl; tauto | intros _; exact E].
    + split; [unfold CATEGORIES; simpl; tauto | discriminate].
Qed.

(** *** Spans and offsets *)

Lemma tokenize_covers (s : string) :
  exists spans,
    Forall2 covers (highlight_sql_tokenize s) spans
    /\ String.concat EmptyString spans = s.
Proof.
  destruct (scan_covers s (String.length s) 0 0 [])
    as [toks [spans [Hf [Hcov Hcat]]]]; [lia | lia |].
  cbn [drop app] in Hf.
  assert (Hs : slice s 0 (String.length s) = s).
  { unfold slice. rewrite substring_take_drop, Nat.sub_0_r. apply take_all. }
  rewrite Hs in Hcat. rewrite tokenize_finish. unfold finditer. rewrite Hf.
  now exists spans.
Qed.

Lemma app_inj_length (a a' b b' : string) :
  String.length a = String.length a' ->
  a +++ b = a' +++ b' -> a = a' /\ b = b'.
Proof.
  revert a'. induction a as [|c a IH]; intros [|c' a'] L E;
    try discriminate L.
  - now split.
  - cbn [append] in E. injection E as -> E. injection L as L.
    destruct (IH a' L E) as [-> ->]. now split.
Qed.

Lemma covers_exact (toks : list token) (spans : list string) :
  Forall2 covers toks spans ->
  upper (String.concat EmptyString spans) = String.concat EmptyString spans ->
  raw_text toks = String.concat EmptyString spans.
Proof.
  unfold raw_text. induction 1 as [|tok v toks spans Hc _ IH]; [reflexivity|].
  cbn [map]. rewrite !concat_empty_cons, Merger.upper_app. intros E.
  destruct (app_inj_length _ _ _ _ (upper_length v) E) as [Ev Er].
  rewrite (IH Er). f_equal.
  destruct Hc as [-> | [_ ->]]; [reflexivity | exact Ev].
Qed.

(** X16. On a text without lower-case letters the highlighter is exactly
    lossless: the concatenated token texts are the input. *)
Theorem lossless_on_upper_case (s : string) :
  upper s = s -> raw_text (highlight_sql_tokenize s) = s.
Proof.
  intros H. destruct (tokenize_covers s) as [spans [Hcov Hcat]].
  rewrite (covers_exact _ _ Hcov); rewrite Hcat; [reflexivity | exact H].
Qed.

Lemma lossless_on_upper_case_witness :
  upper "SELECT A FROM T;" = "SELECT A FROM T;"
  /\ raw_text (highlight_sql_tokenize "SELECT A FROM T;")
     = "SELECT A FROM T;".
Proof.
  split; [reflexivity|].
  exact (lossless_on_upper_case "SELECT A FROM T;" eq_refl).
Defined.

Lemma drop_app_length (a b : string) : drop (String.length a) (a +++ b) = b.
Proof. induction a as [|c a IH]; [reflexivity | exact IH]. Qed.

Lemma take_app_length (a b : string) : take (String.length a) (a +++ b) = a.
Proof.
  induction a as [|c a IH]; [destruct b; reflexivity|].
  cbn [String.length append take]. now rewrite IH.
Qed.

Lemma slice_middle (a v c : string) :
  slice (a +++ v +++ c) (String.length a)
        (String.length a + String.length v) = v.
Proof.
  unfold slice. rewrite substring_take_drop, drop_app_length.
  replace (String.length a + String.length v - String.length a)
    with (String.length v) by lia.
  apply take_app_length.
Qed.

Lemma covers_same_length (tok : token) (v : string) :
  covers tok v -> String.length (snd tok) = String.length v.
Proof. intros [-> | [_ ->]]; [reflexivity | apply upper_length]. Qed.

(** X17. The running position of the renderer, the total length of the
    texts of the tokens before a token, is where the token lies in the
    input: the token covers the span of its own length that starts
    there. *)
Theorem token_offsets (s : string) (pre : list token) (tok : token)
        (post : list token) :
  highlight_sql_tokenize s = pre ++ tok :: post ->
  covers tok (slice s (String.length (raw_text pre))
                    (String.length (raw_text pre)
                     + String.length (snd tok))).
Proof.
  intros E. destruct (tokenize_covers s) as [spans [Hcov Hcat]].
  rewrite E in Hcov. apply Forall2_app_inv_l in Hcov.
  destruct Hcov as [s1 [s2 [H1 [H2 ->]]]].
  inversion H2 as [|? v ? s3 Hc H3]; subst.
  rewrite (covers_length _ _ H1), (covers_same_length _ _ Hc).
  rewrite concat_empty_app, concat_empty_cons, slice_middle.
  exact Hc.
Qed.

Lemma token_offsets_witness :
  highlight_sql_tokenize "select a"
  = [("keyword", "SELECT"); ("ws", " ")] ++ ("ident", "a") :: []
  /\ covers ("ident", "a") (slice "select a" 7 8).
Proof.
  assert (H : highlight_sql_tokenize "select a"
              = [("keyword", "SELECT"); ("ws", " ")] ++ ("ident", "a") :: [])
    by (vm_compute; reflexivity).
  split; [exact H|].
  exact (token_offsets "select a" _ _ _ H).
Defined.

End HighlightMore.

(** ** Statements are formatted one after the other *)

Module Statements.
Import PyStr SQLFormatter StrFacts Spec SpecMore Retokenize.

(** *** Lines produced earlier do not influence the loop *)

Lemma flush_addl (L : list string) (st : fstate) :
  flush_line false (addl L st) = addl L (flush_line false st).
Proof.
  unfold flush_line, addl. cbn [current lines indent_level inside_list
                                in_grant_priv_list].
  destruct (nonempty (current st) || false); [|reflexivity].
  destruct (is_empty (strip (join " " (current st))));
    cbn [lines current indent_level inside_list in_grant_priv_list];
    rewrite ?app_assoc; reflexivity.
Qed.

Lemma attach_addl (L : list string) (suffix : string) (st : fstate) :
  attach_current suffix (addl L st)
  = option_map (addl L) (attach_current suffix st).
Proof.
  unfold attach_current, addl. cbn [current lines indent_level inside_list
                                    in_grant_priv_list].
  destruct (get_last (current st)) as [x|]; [|reflexivity]. cbn [bind].
  destruct (set_last (current st) (x +++ suffix)) as [c|]; reflexivity.
Qed.

Lemma get_last_app {A} (l1 l2 : list A) :
  nonempty l2 = true -> get_last (l1 ++ l2) = get_last l2.
Proof.
  intros H. destruct (nonempty_snoc l2 H) as [l [x ->]].
  now rewrite app_assoc, !get_last_snoc.
Qed.

Lemma set_last_app {A} (l1 l2 : list A) (v : A) :
  nonempty l2 = true ->
  set_last (l1 ++ l2) v = option_map (app l1) (set_last l2 v).
Proof.
  intros H. destruct (nonempty_snoc l2 H) as [l [x ->]].
  rewrite app_assoc, !set_last_snoc. cbn [option_map].
  now rewrite app_assoc.
Qed.

Lemma nonempty_app_r {A} (l1 l2 : list A) :
  nonempty l2 = true -> nonempty (l1 ++ l2) = true.
Proof. destruct l1; [exact (fun H => H) | reflexivity]. Qed.

(** An iteration reads the lines only to attach a semicolon to the last
    one, when the pending line is empty. *)
Lemma step_addl (L : list string) (st : fstate) (tok : string) :
  (tok =? ";")%string = false
  \/ nonempty (current st) = true \/ nonempty (lines st) = true ->
  step (addl L st) tok = option_map (addl L) (step st tok).
Proof.
  intros H. destruct (is_structural tok) eqn:Es.
  - destruct (Idempotence.structural_cases tok Es)
      as [-> | [-> | [-> | ->]]].
    + rewrite !Idempotence.step_comma.
      change (current (addl L st)) with (current st).
      destruct (nonempty (current st)).
      * rewrite attach_addl.
        destruct (attach_current "," st) as [st1|]; [|reflexivity].
        cbn [option_map bind].
        change (inside_list (addl L st1)) with (inside_list st1).
        destruct (inside_list st1); [now rewrite flush_addl | reflexivity].
      * cbn [bind option_map].
        change (inside_list (addl L st)) with (inside_list st).
        destruct (inside_list st); [now rewrite flush_addl | reflexivity].
    + rewrite !Idempotence.step_open. cbv zeta. cbn [option_map].
      change (append_current "(" (addl L st))
        with (addl L (append_current "(" st)).
      rewrite flush_addl. reflexivity.
    + rewrite !Idempotence.step_close. cbv zeta. cbn [option_map].
      rewrite flush_addl.
      match goal with
      | |- context [append_current ")" ?s] =>
          change (append_current ")" s)
            with (addl L (append_current ")"
                    (mkState (lines (flush_line false st))
                             (current (flush_line false st))
                             (Z.max 0 (indent_level (flush_line false st) - 1))
                             (inside_list (flush_line false st))
                             (in_grant_priv_list (flush_line false st)))))
      end.
      rewrite flush_addl. reflexivity.
    + rewrite !Idempotence.step_semicolon.
      change (current (addl L st)) with (current st).
      destruct (nonempty (current st)) eqn:Ec.
      * rewrite attach_addl.
        destruct (attach_current ";" st) as [st1|]; [|reflexivity].
        cbn [option_map bind]. rewrite flush_addl. unfold addl.
        cbn [lines current]. now rewrite app_assoc.
      * destruct H as [H | [H | H]]; try discriminate H.
        rewrite H. change (lines (addl L st)) with (L ++ lines st).
        rewrite (nonempty_app_r L _ H), (get_last_app L _ H).
        destruct (get_last (lines st)) as [x|]; [|reflexivity].
        cbn [bind]. rewrite (set_last_app L _ _ H).
        destruct (set_last (lines st) (rstrip x +++ ";")) as [l|];
          [|reflexivity].
        cbn [option_map bind]. unfold addl. cbn [lines current].
        now rewrite app_assoc.
  - destruct (Idempotence.structural_false tok Es) as [Hc [Ho [Hcl Hs]]].
    unfold step. rewrite Hc, Ho, Hcl, Hs.
    change (in_grant_priv_list (addl L st)) with (in_grant_priv_list st).
    destruct (mem tok CLAUSE_KEYWORDS
              && negb (in_grant_priv_list st && mem tok PRIVILEGE_WORDS)).
    + rewrite flush_addl. reflexivity.
    + destruct (in_grant_priv_list st && mem tok LIST_EXIT); reflexivity.
Qed.

Lemma words_nonempty_state (st : fstate) :
  words st <> [] ->
  nonempty (current st) = true \/ nonempty (lines st) = true.
Proof.
  intros H. destruct (current st) as [|x c] eqn:Ec; [|now left].
  destruct (lines st) as [|y l] eqn:El; [|now right].
  exfalso. apply H. unfold words. now rewrite Ec, El.
Qed.

Lemma run_addl (L tokens : list string) :
  forall st,
    words st <> [] ->
    run (addl L st) tokens = option_map (addl L) (run st tokens).
Proof.
  induction tokens as [|tok rest IH]; intros st Hw; [reflexivity|].
  cbn [run]. rewrite step_addl by (right; now apply words_nonempty_state).
  destruct (step st tok) as [st1|] eqn:Es; [|reflexivity].
  cbn [option_map bind]. apply IH.
  exact (Idempotence.step_words_nonempty _ _ _ Es Hw).
Qed.

(** The loop on a sequence whose first token is kept and holds a word
    goes the same way after any lines. *)
Lemma run_addl_init (L : list string) (t : string) (rest : list string) :
  dropped init_state t = false ->
  _tokenize t <> [] ->
  run (addl L init_state) (t :: rest)
  = option_map (addl L) (run init_state (t :: rest)).
Proof.
  intros Hd Ht. cbn [run].
  assert (Hs : (t =? ";")%string = false).
  { destruct (String.eqb_spec t ";") as [-> | _];
      [discriminate Hd | reflexivity]. }
  rewrite step_addl by now left.
  destruct (step init_state t) as [st1|] eqn:Es; [|reflexivity].
  cbn [option_map bind]. apply run_addl.
  rewrite (Idempotence.step_words _ _ _ Es), Hd. exact Ht.
Qed.

(** *** Joining and stripping *)

Lemma join_app (sep : string) (a b : list string) :
  a <> [] -> b <> [] ->
  join sep (a ++ b) = join sep a +++ sep +++ join sep b.
Proof.
  intros Ha Hb. unfold join. induction a as [|x a IH]; [congruence|].
  destruct a as [|x' a].
  - destruct b as [|y b]; [congruence | reflexivity].
  - change (String.concat sep ((x :: x' :: a) ++ b))
      with (x +++ sep +++ String.concat sep ((x' :: a) ++ b)).
    rewrite IH by discriminate.
    change (String.concat sep (x :: x' :: a))
      with (x +++ sep +++ String.concat sep (x' :: a)).
    now rewrite !append_assoc.
Qed.

Lemma join_snoc (sep : string) (c : list string) (z : string) :
  exists w, join sep (c ++ [z]) = w +++ z.
Proof.
  destruct c as [|x c]; [exists EmptyString; reflexivity|].
  exists (join sep (x :: c) +++ sep).
  rewrite join_app by discriminate. now rewrite append_assoc.
Qed.

Lemma rstrip_all_space (sp : string) :
  all_space sp = true -> rstrip sp = EmptyString.
Proof.
  induction sp as [|c sp IH]; [reflexivity|]. cbn [all_space rstrip].
  intros H. apply andb_prop in H. destruct H as [Hc Hs].
  now rewrite (IH Hs), Hc.
Qed.

Lemma rstrip_app_space (x sp : string) :
  all_space sp = true -> rstrip (x +++ sp) = rstrip x.
Proof.
  intros H. induction x as [|c x IH]; [now apply rstrip_all_space|].
  cbn [append rstrip]. now rewrite IH.
Qed.

Lemma rstrip_app_keep (a b : string) :
  rstrip b <> EmptyString -> rstrip (a +++ b) = a +++ rstrip b.
Proof.
  intros H. induction a as [|c a IH]; [reflexivity|].
  cbn [append rstrip]. rewrite IH.
  destruct (a +++ rstrip b) eqn:E; [|reflexivity].
  exfalso. apply H. destruct a; [exact E | discriminate E].
Qed.

Lemma rstrip_snoc (u : string) (c : ascii) :
  isspace c = false ->
  rstrip (u +++ String c EmptyString) = u +++ String c EmptyString.
Proof.
  intros Hc.
  assert (R : rstrip (String c EmptyString) = String c EmptyString)
    by (cbn [rstrip]; now rewrite Hc).
  rewrite rstrip_app_keep; rewrite R; [reflexivity | discriminate].
Qed.

Lemma lstrip_snoc (u : string) (c : ascii) :
  isspace c = false ->
  exists u', lstrip (u +++ String c EmptyString) = u' +++ String c EmptyString.
Proof.
  intros Hc. induction u as [|x u [u' IH]].
  - exists EmptyString. cbn [append lstrip]. now rewrite Hc.
  - cbn [append lstrip]. destruct (isspace x).
    + now exists u'.
    + now exists (String x u).
Qed.

Lemma strip_snoc (u : string) (c : ascii) :
  isspace c = false ->
  exists u', strip (u +++ String c EmptyString) = u' +++ String c EmptyString.
Proof.
  intros Hc. unfold strip. destruct (lstrip_snoc u c Hc) as [u' ->].
  exists u'. now apply rstrip_snoc.
Qed.

(** *** The state after a semicolon *)

Lemma flush_empty (st : fstate) :
  current st = [] -> flush_line false st = st.
Proof. intros H. unfold flush_line. now rewrite H. Qed.

Lemma addl_init_eq (st : fstate) :
  current st = [] -> indent_level st = 0%Z ->
  inside_list st = false -> in_grant_priv_list st = false ->
  st = addl (lines st) init_state.
Proof.
  destruct st as [l c i il gp]. cbn. intros -> -> -> ->.
  unfold addl. cbn. now rewrite app_nil_r.
Qed.

Lemma semicolon_state (st st' : fstate) :
  step st ";" = Some st' ->
  st' = addl (lines st') init_state
  /\ (lines st' = [EmptyString]
      \/ exists l y, lines st' = l ++ [y +++ ";"; EmptyString]).
Proof.
  rewrite Idempotence.step_semicolon.
  destruct (nonempty (current st)) eqn:Ec.
  - unfold attach_current.
    destruct (nonempty_snoc _ Ec) as [c [x E]].
    rewrite E, get_last_snoc. cbn [bind]. rewrite set_last_snoc. cbn [bind].
    intros H. injection H as <-. unfold flush_line.
    cbn [current lines indent_level inside_list in_grant_priv_list].
    replace (nonempty (c ++ [x +++ ";"]) || false) with true
      by (destruct c; reflexivity).
    destruct (join_snoc " " c (x +++ ";")) as [w ->].
    rewrite <- append_assoc.
    destruct (strip_snoc (w +++ x) ";" eq_refl) as [u' ->].
    assert (Hne : is_empty (u' +++ ";") = false) by (destruct u'; reflexivity).
    rewrite Hne. cbn [lines current]. split; [now apply addl_init_eq|].
    right. exists (lines st),
             (repeat_str indent (Z.to_nat (indent_level st)) +++ u').
    now rewrite <- app_assoc, append_assoc.
  - destruct (nonempty (lines st)) eqn:El.
    + destruct (nonempty_snoc _ El) as [l [x E]].
      rewrite E, get_last_snoc. cbn [bind]. rewrite set_last_snoc.
      cbn [bind]. intros H. injection H as <-.
      cbn [lines current]. apply nonempty_false in Ec.
      split; [now apply addl_init_eq|]. right. exists l, (rstrip x).
      now rewrite <- app_assoc.
    + cbn [bind]. intros H. injection H as <-.
      apply nonempty_false in Ec. apply nonempty_false in El.
      cbn [lines current]. rewrite El.
      split; [now apply addl_init_eq | now left].
Qed.

(** *** Two statements *)

Lemma format_two_statements (M1 : list string) (t : string)
      (rest : list string) (f1 f2 : string) :
  dropped init_state t = false ->
  _tokenize t <> [] ->
  _format_tokens (M1 ++ [";"]) = Some f1 -> f1 <> EmptyString ->
  _format_tokens (t :: rest) = Some f2 -> f2 <> EmptyString ->
  _format_tokens (M1 ++ ";" :: t :: rest) = Some (f1 +++ NL +++ NL +++ f2).
Proof.
  intros Hd Ht H1 Hf1 H2 Hf2. unfold _format_tokens in *.
  rewrite CommaDrop.run_app in *.
  destruct (run init_state M1) as [sa|]; [|discriminate H1].
  cbn [bind run] in *.
  destruct (step sa ";") as [s1|] eqn:Es; [|discriminate H1].
  cbn [bind] in *.
  destruct (semicolon_state sa s1 Es) as [Hs1 HL].
  assert (Hc1 : current s1 = []) by (rewrite Hs1; reflexivity).
  rewrite (flush_empty s1 Hc1) in H1. injection H1 as H1.
  change (st' <- step s1 t ;; run st' rest) with (run s1 (t :: rest)).
  change (st' <- step init_state t ;; run st' rest)
    with (run init_state (t :: rest)) in H2.
  rewrite Hs1, (run_addl_init _ t rest Hd Ht).
  destruct (run init_state (t :: rest)) as [s2|]; [|discriminate H2].
  cbn [bind option_map] in *. injection H2 as H2.
  rewrite flush_addl. unfold addl at 1. cbn [lines].
  destruct HL as [HL | [l [y HL]]].
  { exfalso. apply Hf1. rewrite <- H1, HL. reflexivity. }
  destruct (lines (flush_line false s2)) as [|z L2] eqn:E2.
  { exfalso. apply Hf2. rewrite <- H2. reflexivity. }
  f_equal. rewrite <- H1, <- H2, HL.
  change (l ++ [y +++ ";"; EmptyString])
    with (l ++ [y +++ ";"] ++ [EmptyString]).
  rewrite !app_assoc, <- (app_assoc _ [EmptyString] (z :: L2)).
  set (A := l ++ [y +++ ";"]).
  assert (HA : A <> []) by (unfold A; destruct l; discriminate).
  rewrite (join_app NL A ([EmptyString] ++ z :: L2)) by (assumption || discriminate).
  rewrite (join_app NL [EmptyString] (z :: L2)) by discriminate.
  rewrite (join_app NL A [EmptyString]) by (assumption || discriminate).
  change (join NL [EmptyString]) with EmptyString.
  cbn [append].
  destruct (join_snoc NL l (y +++ ";")) as [w Hw]. fold A in Hw.
  assert (HJ : rstrip (join NL A +++ NL) = join NL A).
  { rewrite rstrip_app_space by reflexivity.
    rewrite Hw, <- append_assoc. now apply rstrip_snoc. }
  rewrite append_nil_r, HJ.
  rewrite <- !append_assoc.
  rewrite rstrip_app_keep by (rewrite H2; exact Hf2).
  now rewrite !append_assoc.
Qed.

(** *** Two statements of a text *)

Lemma semicolon_not_continuation : not_continuation (upper ";").
Proof. apply Merger.not_continuation_by_table. vm_compute. reflexivity. Qed.

Lemma merge_semicolon_head (T : list string) :
  _merge_compounds (";" :: T) = ";" :: _merge_compounds T.
Proof.
  destruct T as [|b T]; [reflexivity|].
  rewrite Merger.merge_two.
  now rewrite (Idempotence.structural_no_phrase ";" b eq_refl).
Qed.

Lemma merge_at_semicolon (T1 T2 : list string) :
  _merge_compounds (T1 ++ ";" :: T2)
  = _merge_compounds T1 ++ ";" :: _merge_compounds T2.
Proof.
  rewrite (Merger.merge_app T1 ";" T2 semicolon_not_continuation).
  now rewrite merge_semicolon_head.
Qed.

(** X18. Statements are formatted one after the other: when the text up
    to a semicolon and the text after it both have a formatted text that
    is not empty, and the text after it does not begin with a comma or a
    semicolon, the whole is formatted as the first formatted text, an
    empty line and the second formatted text.  Indentation and list
    context of the first statement do not reach the second. *)
Theorem format_statements (s1 s2 f1 f2 : string) (e1 e2 : list string) :
  format_and_check (s1 +++ ";") = Some (f1, e1) ->
  f1 <> EmptyString ->
  format_and_check s2 = Some (f2, e2) ->
  f2 <> EmptyString ->
  hd_error (_tokenize s2) <> Some "," ->
  hd_error (_tokenize s2) <> Some ";" ->
  exists errors,
    format_and_check (s1 +++ ";" +++ s2)
    = Some (f1 +++ NL +++ NL +++ f2, errors).
Proof.
  unfold format_and_check. rewrite !tokenize_strip.
  change (s1 +++ ";" +++ s2) with (s1 +++ String ";" s2).
  rewrite (tokenize_struct s1 ";" s2 eq_refl),
    (tokenize_suffix s1 ";" eq_refl).
  change ([String ";" EmptyString]) with ([";"] ++ (@nil string)).
  change (_tokenize s1 ++ [";"] ++ [])
    with (_tokenize s1 ++ ";" :: []).
  rewrite !merge_at_semicolon.
  change (_merge_compounds []) with (@nil string).
  intros H1 Hf1 H2 Hf2 Hc Hs.
  destruct (_format_tokens (_merge_compounds (_tokenize s1) ++ [";"]))
    as [g1|] eqn:F1; [|discriminate H1].
  cbn [bind] in H1.
  destruct (_check_syntax (_merge_compounds (_tokenize s1) ++ [";"]));
    [|discriminate H1].
  cbn [bind] in H1. injection H1 as -> _.
  destruct (_format_tokens (_merge_compounds (_tokenize s2)))
    as [g2|] eqn:F2; [|discriminate H2].
  cbn [bind] in H2.
  destruct (_check_syntax (_merge_compounds (_tokenize s2)));
    [|discriminate H2].
  cbn [bind] in H2. injection H2 as -> _.
  pose proof (Idempotence.tokenize_clean s2) as Hcl.
  destruct (_tokenize s2) as [|t0 T] eqn:E2.
  { exfalso. apply Hf2. cbn in F2. now injection F2 as <-. }
  assert (Hc0 : t0 <> ",") by (intros ->; now apply Hc).
  assert (Hs0 : t0 <> ";") by (intros ->; now apply Hs).
  destruct (Idempotence.merged_head_kept t0 T Hcl Hc0 Hs0) as [y [m [Em [Hd Hy]]]].
  rewrite Em in *.
  rewrite (format_two_statements _ y m f1 f2 Hd Hy F1 Hf1 F2 Hf2).
  cbn [bind].
  destruct (Totality.check_syntax_total
              (_merge_compounds (_tokenize s1) ++ ";" :: y :: m))
    as [errs ->].
  cbn [bind]. now exists errs.
Qed.

Lemma format_statements_witness :
  exists errors,
    format_and_check ("select ( a" +++ ";" +++ " b from t")
    = Some (("SELECT (" +++ NL +++ "    a;") +++ NL +++ NL
            +++ ("b" +++ NL +++ "FROM t"), errors).
Proof.
  apply (format_statements
           "select ( a" " b from t"
           ("SELECT (" +++ NL +++ "    a;") ("b" +++ NL +++ "FROM t")
           ["Parentheses are not balanced."]
           ["SQL must start with a keyword, got 'b'.";
            "SQL should end with ';'."]).
  - vm_compute. reflexivity.
  - discriminate.
  - vm_compute. reflexivity.
  - discriminate.
  - vm_compute. discriminate.
  - vm_compute. discriminate.
Defined.

End Statements.

(** ** Tokens, and formatting a text without diagnostics *)

Module Reformat.
Import PyStr SQLFormatter StrFacts Spec SpecMore Retokenize.

(** X19. Every token of the tokenizer is not empty and has no white
    space; it is one of the four structural characters alone, or has none
    of them.  Tokenizing a token gives the token back. *)
Theorem tokens_are_words (sql : string) :
  Forall (fun t => word_shape t /\ _tokenize t = [t]) (_tokenize sql).
Proof.
  unfold _tokenize at 2, split.
  eapply Forall_impl;
    [|exact (Idempotence.split_pad_shape sql EmptyString eq_refl)].
  intros t H. split; [exact H | now apply Idempotence.word_shape_clean].
Qed.

(** *** The kept tokens of a text without diagnostics *)

Lemma kept_drops_comma (M : list string) :
  forall st, words st <> [] -> drops_comma (kept_tokens st M) M.
Proof.
  induction M as [|tok rest IH]; intros st Hw; [constructor|].
  cbn [kept_tokens].
  destruct (Totality.step_total st tok) as [st1 Es]. rewrite Es.
  pose proof (Idempotence.step_words_nonempty _ _ _ Es Hw) as Hw1.
  destruct (dropped st tok) eqn:Ed.
  - cbn [app]. unfold dropped in Ed.
    destruct (nonempty (current st)) eqn:Ec;
      [cbn [negb] in Ed; rewrite !andb_false_r in Ed; discriminate Ed|].
    destruct (nonempty (lines st)) eqn:El.
    + cbn [negb] in Ed. rewrite !andb_false_r, !andb_true_r, orb_false_r in Ed.
      apply String.eqb_eq in Ed. subst tok. constructor. now apply IH.
    + exfalso. apply Hw. unfold words.
      now rewrite (nonempty_false _ Ec), (nonempty_false _ El).
  - cbn [app]. constructor. now apply IH.
Qed.

Lemma paren_scan_drops_comma (K M : list string) :
  drops_comma K M ->
  forall i j b,
    fst (paren_scan i b K) = fst (paren_scan j b M)
    /\ (snd (paren_scan i b K) = [] <-> snd (paren_scan j b M) = []).
Proof.
  induction 1 as [|x k m _ IH|k m _ IH]; intros i j b.
  - split; reflexivity.
  - cbn [paren_scan]. destruct (x =? "(")%string; [apply IH|].
    destruct (x =? ")")%string; [|apply IH].
    destruct (b - 1 <? 0)%Z; [|apply IH].
    cbn [fst snd]. split; [reflexivity|]. split; discriminate.
  - change (paren_scan j b ("," :: m)) with (paren_scan (S j) b m).
    apply IH.
Qed.

Lemma check_parens_nil_iff (tokens : list string) :
  check_parens tokens = [] <->
  snd (paren_scan 0 0 tokens) = [] /\ fst (paren_scan 0 0 tokens) = 0%Z.
Proof.
  unfold check_parens. destruct (paren_scan 0 0 tokens) as [b errs].
  cbn [fst snd]. destruct errs as [|e errs].
  - cbn [app]. destruct (b =? 0)%Z eqn:E.
    + apply Z.eqb_eq in E. now split.
    + apply Z.eqb_neq in E. split; [discriminate | now intros [_ H]].
  - split; [discriminate | now intros [H _]].
Qed.

Lemma check_parens_drops_comma (K M : list string) :
  drops_comma K M -> check_parens M = [] -> check_parens K = [].
Proof.
  intros H. rewrite !check_parens_nil_iff.
  destruct (paren_scan_drops_comma K M H 0 0 0%Z) as [Hf Hs].
  rewrite Hf, Hs. exact (fun x => x).
Qed.

Lemma drops_comma_nil (K : list string) : drops_comma K [] -> K = [].
Proof. intros H. now inversion H. Qed.

Lemma get_last_cons {A} (x : A) (l : list A) :
  nonempty l = true -> get_last (x :: l) = get_last l.
Proof. destruct l; [discriminate | reflexivity]. Qed.

Lemma get_last_drops_comma (K M : list string) :
  drops_comma K M -> get_last M = Some ";" -> get_last K = Some ";".
Proof.
  induction 1 as [|x k m H IH|k m H IH]; intros Hl; [exact Hl| |].
  - destruct m as [|y m].
    + apply drops_comma_nil in H. now subst k.
    + rewrite get_last_cons in Hl by reflexivity. specialize (IH Hl).
      destruct k as [|z k]; [discriminate IH|].
      now rewrite get_last_cons by reflexivity.
  - destruct m as [|y m]; [discriminate Hl|].
    rewrite get_last_cons in Hl by reflexivity. now apply IH.
Qed.

(** The checker has no diagnostic for the kept tokens of a sequence for
    which it has none. *)
Lemma check_kept (M : list string) :
  Spec.wm M ->
  _check_syntax M = Some [] ->
  _check_syntax (kept_tokens init_state M) = Some [].
Proof.
  intros Hwm Hc. destruct M as [|t rest]; [exact Hc|].
  destruct (get_last_nonempty (t :: rest) eq_refl) as [x Ex].
  rewrite (FormatterMore.check_syntax_last t rest x Ex) in Hc.
  destruct (mem (upper t) VALID_STARTS) eqn:Em;
    [|cbn [app] in Hc; discriminate Hc].
  cbn [app] in Hc. injection Hc as Hc. apply app_eq_nil in Hc.
  destruct Hc as [Hp Hx].
  destruct (String.eqb_spec x ";") as [-> | _]; [|discriminate Hx].
  cbn [kept_tokens].
  destruct (Totality.step_total init_state t) as [st1 Es]. rewrite Es.
  rewrite (Idempotence.valid_start_not_dropped t Em). cbn [app].
  destruct (Idempotence.wm_head_words t rest Hwm) as [h [tl Ht]].
  assert (Hw : words st1 <> []).
  { rewrite (Idempotence.step_words _ _ _ Es),
      (Idempotence.valid_start_not_dropped t Em), Ht. discriminate. }
  assert (Hd : drops_comma (t :: kept_tokens st1 rest) (t :: rest))
    by (constructor; now apply kept_drops_comma).
  rewrite (FormatterMore.check_syntax_last t _ ";"
             (get_last_drops_comma _ _ Hd Ex)).
  rewrite Em, (check_parens_drops_comma _ _ Hd Hp). reflexivity.
Qed.

(** X20. A text for which [format_and_check] reports no diagnostic is
    formatted to a text for which it reports none either, and which it
    leaves unchanged. *)
Theorem clean_stays_clean (sql f : string) :
  format_and_check sql = Some (f, []) ->
  format_and_check f = Some (f, []).
Proof.
  unfold format_and_check.
  destruct (_format_tokens (_merge_compounds (_tokenize (strip sql))))
    as [f0|] eqn:Ef; [|discriminate].
  destruct (_check_syntax (_merge_compounds (_tokenize (strip sql))))
    as [errs|] eqn:Ec; [|discriminate].
  cbn [bind]. intros H. injection H as -> ->.
  pose proof (Idempotence.merge_wm _ (Idempotence.tokenize_clean (strip sql)))
    as Hwm.
  assert (Hd : match _merge_compounds (_tokenize (strip sql)) with
               | [] => True
               | t :: _ => dropped init_state t = false
               end).
  { destruct (Idempotence.no_diagnostics_start _ Ec)
      as [-> | [t [rest [-> Hv]]]];
      [exact I | now apply Idempotence.valid_start_not_dropped]. }
  rewrite (Idempotence.format_tokens_again
             _ f (Idempotence.tokenize_clean _) Hd Ef).
  cbn [bind].
  rewrite (Idempotence.tokenize_formatted _ f Ef).
  rewrite (Idempotence.wm_merge_flat
             _ (Idempotence.wm_kept _ Hwm init_state)).
  rewrite (check_kept _ Hwm Ec). reflexivity.
Qed.

Lemma clean_stays_clean_witness :
  format_and_check "insert into t (a,b) values (1,2);"
  = Some ("INSERT INTO t (" +++ NL +++ "    a," +++ NL +++ "    b" +++ NL
          +++ ")" +++ NL +++ "VALUES (" +++ NL +++ "    1," +++ NL
          +++ "    2" +++ NL +++ ");", [])
  /\ format_and_check
       ("INSERT INTO t (" +++ NL +++ "    a," +++ NL +++ "    b" +++ NL
        +++ ")" +++ NL +++ "VALUES (" +++ NL +++ "    1," +++ NL
        +++ "    2" +++ NL +++ ");")
     = Some ("INSERT INTO t (" +++ NL +++ "    a," +++ NL +++ "    b" +++ NL
             +++ ")" +++ NL +++ "VALUES (" +++ NL +++ "    1," +++ NL
             +++ "    2" +++ NL +++ ");", []).
Proof.
  assert (H : format_and_check "insert into t (a,b) values (1,2);"
              = Some ("INSERT INTO t (" +++ NL +++ "    a," +++ NL
                      +++ "    b" +++ NL +++ ")" +++ NL +++ "VALUES ("
                      +++ NL +++ "    1," +++ NL +++ "    2" +++ NL
                      +++ ");", []))
    by (vm_compute; reflexivity).
  split; [exact H|].
  exact (clean_stays_clean "insert into t (a,b) values (1,2);" _ H).
Defined.

End Reformat.
